(** * Qiskit Nature: the README example and the tutorial notebooks

    The repository's own code is three example programs: the Python block
    of [README.md], the ground-state tutorial
    [docs/tutorials/03_ground_state_solvers.ipynb] and the
    electronic-structure tutorial.  Each is straight-line Python that calls
    into the framework.  This development

    - gives the abstract syntax of the Python statements involved and
      transcribes the three programs statement by statement, cell by cell;
    - gives the programs a big-step semantics over Python's global
      namespace, in which every operation on a value (import, call,
      attribute read, subscript, operator, rendering and writing by
      [print]) is answered by an arbitrary [ext], which stands for all that
      lies outside the text of the examples: the framework, Python's
      runtime and standard output;
    - proves the properties of the examples that hold for every such
      [ext]. *)

From Stdlib Require Import ZArith Ascii DecimalString.
From stdpp Require Import gmap strings list.

(** ** Abstract syntax *)

Scheme All for list.
Scheme All for prod.

Inductive binop : Type := BAdd | BSub | BMul | BDiv.

(** Expressions.  A call carries its positional arguments and its keyword
    arguments in source order.  [EAwait] and [EYield] are the coroutine
    expressions of Python. *)
Inductive expr : Type :=
| EName (x : string)
| EStr (s : string)
| EInt (n : Z)
| EFloat (literal : string)
| EBool (b : bool)
| EList (items : list expr)
| ETuple (items : list expr)
| EAttr (e : expr) (attr : string)
| ESubscript (e : expr) (index : expr)
| EBinOp (o : binop) (l r : expr)
| ECall (f : expr) (args : list expr) (kwargs : list (string * expr))
| EAwait (e : expr)
| EYield (e : expr).

(** Statement forms that none of the semantics below executes: compound
    statements, definitions, and the statements that mutate an object or
    raise and handle exceptions. *)
Inductive stmt_kind : Type :=
| KAttrAssign | KSubscriptAssign | KAugAssign | KDel
| KRaise | KTry | KAssert
| KWith | KFor | KWhile | KIf
| KDef | KClass | KReturn | KGlobal
| KAsyncDef | KAsyncFor | KAsyncWith.

Inductive stmt : Type :=
| SImportFrom (module : string) (names : list string)
| SImport (module : string)
| SAssign (x : string) (e : expr)
| SExpr (e : expr)
| SMagic (line : string)
| SOther (k : stmt_kind).

(** A notebook is its list of cells; only code cells carry statements. *)
Inductive cell : Type :=
| Markdown
| Code (execution_count : N) (source : list stmt).

Definition cell_source (c : cell) : list stmt :=
  match c with
  | Markdown => []
  | Code _ src => src
  end.

(** The program of a notebook: the code cells in the order they appear. *)
Definition notebook_program (nb : list cell) : list stmt :=
  concat (map cell_source nb).

(** Shorthands used by the transcriptions. *)
Definition call (f : string) (args : list expr) (kwargs : list (string * expr)) : expr :=
  ECall (EName f) args kwargs.

Definition method (obj m : string) (args : list expr) (kwargs : list (string * expr)) : expr :=
  ECall (EAttr (EName obj) m) args kwargs.

Definition print_ (e : expr) : stmt := SExpr (call "print" [e] []).

(** ** The README example (README.md, the python block) *)

Definition readme_setup : list stmt :=
  [ SImportFrom "qiskit_nature.drivers" ["PySCFDriver"; "UnitsType"];
    SImportFrom "qiskit_nature.problems.second_quantization.electronic"
                ["ElectronicStructureProblem"];
    SAssign "driver"
      (call "PySCFDriver" []
         [("atom", EStr "H .0 .0 .0; H .0 .0 0.735");
          ("unit", EAttr (EName "UnitsType") "ANGSTROM");
          ("basis", EStr "sto3g")]);
    SAssign "problem" (call "ElectronicStructureProblem" [EName "driver"] []);
    SAssign "second_q_ops" (method "problem" "second_q_ops" [] []);
    SAssign "main_op" (ESubscript (EName "second_q_ops") (EInt 0));
    SAssign "num_particles"
      (ETuple [EAttr (EAttr (EName "problem") "molecule_data_transformed") "num_alpha";
               EAttr (EAttr (EName "problem") "molecule_data_transformed") "num_beta"]);
    SAssign "num_spin_orbitals"
      (EBinOp BMul (EInt 2)
         (EAttr (EAttr (EName "problem") "molecule_data") "num_molecular_orbitals"));
    SImportFrom "qiskit.algorithms.optimizers" ["L_BFGS_B"];
    SAssign "optimizer" (call "L_BFGS_B" [] []);
    SImportFrom "qiskit_nature.mappers.second_quantization" ["ParityMapper"];
    SImportFrom "qiskit_nature.operators.second_quantization.qubit_converter"
                ["QubitConverter"];
    SAssign "mapper" (call "ParityMapper" [] []);
    SAssign "converter"
      (call "QubitConverter" []
         [("mapper", EName "mapper"); ("two_qubit_reduction", EBool true)]);
    SAssign "qubit_op"
      (method "converter" "convert" [EName "main_op"]
         [("num_particles", EName "num_particles")]);
    SImportFrom "qiskit_nature.circuit.library" ["HartreeFock"];
    SAssign "init_state"
      (call "HartreeFock"
         [EName "num_spin_orbitals"; EName "num_particles"; EName "converter"] []);
    SImportFrom "qiskit.circuit.library" ["TwoLocal"] ].

Definition readme_two_local : expr :=
  call "TwoLocal"
    [EName "num_spin_orbitals"; EList [EStr "ry"; EStr "rz"]; EStr "cz"] [].

Definition readme_ansatz : stmt := SAssign "ansatz" readme_two_local.

(** [ansatz.compose(init_state, front=True)], an expression statement. *)
Definition readme_compose : stmt :=
  SExpr (method "ansatz" "compose" [EName "init_state"] [("front", EBool true)]).

Definition readme_backend : list stmt :=
  [ SImportFrom "qiskit" ["Aer"];
    SAssign "backend"
      (ECall (EAttr (EName "Aer") "get_backend") [EStr "statevector_simulator"] []);
    SImportFrom "qiskit.algorithms" ["VQE"] ].

Definition readme_vqe_call : expr :=
  call "VQE" [EName "ansatz"]
    [("optimizer", EName "optimizer"); ("quantum_instance", EName "backend")].

Definition readme_run : list stmt :=
  [ SAssign "algorithm" readme_vqe_call;
    SAssign "result"
      (method "algorithm" "compute_minimum_eigenvalue" [EName "qubit_op"] []);
    print_ (EAttr (EAttr (EName "result") "eigenvalue") "real");
    SAssign "electronic_structure_result"
      (method "problem" "interpret" [EName "result"] []);
    print_ (EName "electronic_structure_result") ].

Definition readme_example : list stmt :=
  readme_setup ++ [readme_ansatz; readme_compose] ++ readme_backend ++ readme_run.

(** ** The hydrogen molecule of both tutorials *)

Definition h2_molecule : stmt :=
  SAssign "molecule"
    (call "Molecule" []
       [("geometry",
         EList [EList [EStr "H"; EList [EFloat "0."; EFloat "0."; EFloat "0."]];
                EList [EStr "H"; EList [EFloat "0."; EFloat "0."; EFloat "0.735"]]]);
        ("charge", EInt 0);
        ("multiplicity", EInt 1)]).

Definition h2_driver : stmt :=
  SAssign "driver"
    (call "PySCFDriver" []
       [("molecule", EName "molecule");
        ("unit", EAttr (EName "UnitsType") "ANGSTROM");
        ("basis", EStr "sto3g")]).

Definition version_cell (n : N) : cell :=
  Code n [ SImport "qiskit.tools.jupyter";
           SMagic "qiskit_version_table";
           SMagic "qiskit_copyright" ].

(** ** The ground-state tutorial (docs/tutorials/03_ground_state_solvers.ipynb) *)

Definition gs_cell_problem : cell :=
  Code 21
    [ SImportFrom "qiskit" ["Aer"];
      SImportFrom "qiskit_nature.drivers" ["PySCFDriver"; "UnitsType"; "Molecule"];
      SImportFrom "qiskit_nature.problems.second_quantization.electronic"
                  ["ElectronicStructureProblem"];
      SImportFrom "qiskit_nature.operators.second_quantization.qubit_converter"
                  ["QubitConverter"];
      SImportFrom "qiskit_nature.mappers.second_quantization" ["JordanWignerMapper"];
      h2_molecule;
      h2_driver;
      SAssign "es_problem" (call "ElectronicStructureProblem" [EName "driver"] []);
      SAssign "qubit_converter"
        (call "QubitConverter" [call "JordanWignerMapper" [] []] []) ].

Definition gs_cell_numpy : cell :=
  Code 22
    [ SImportFrom "qiskit.algorithms" ["NumPyMinimumEigensolver"];
      SAssign "numpy_solver" (call "NumPyMinimumEigensolver" [] []) ].

Definition statevector_backend : expr :=
  ECall (EAttr (EName "Aer") "get_backend") [EStr "statevector_simulator"] [].

Definition gs_cell_vqe : cell :=
  Code 23
    [ SImportFrom "qiskit.providers.aer" ["StatevectorSimulator"];
      SImportFrom "qiskit" ["Aer"];
      SImportFrom "qiskit.utils" ["QuantumInstance"];
      SImportFrom
        "qiskit_nature.algorithms.ground_state_solvers.minimum_eigensolver_factories"
        ["VQEUCCFactory"];
      SAssign "quantum_instance"
        (call "QuantumInstance" [] [("backend", statevector_backend)]);
      SAssign "vqe_solver" (call "VQEUCCFactory" [EName "quantum_instance"] []) ].

Definition gs_cell_two_local : cell :=
  Code 24
    [ SImportFrom "qiskit.algorithms" ["VQE"];
      SImportFrom "qiskit.circuit.library" ["TwoLocal"];
      SAssign "tl_circuit"
        (call "TwoLocal" []
           [("rotation_blocks", EList [EStr "h"; EStr "rx"]);
            ("entanglement_blocks", EStr "cz");
            ("entanglement", EStr "full");
            ("reps", EInt 3);
            ("parameter_prefix", EStr "y")]);
      SExpr (method "tl_circuit" "draw" [] [("output", EStr "mpl")]);
      SAssign "another_solver"
        (call "VQE" []
           [("ansatz", EName "tl_circuit");
            ("quantum_instance", call "QuantumInstance" [statevector_backend] [])]) ].

Definition gs_cell_solve_vqe : cell :=
  Code 25
    [ SImportFrom "qiskit_nature.algorithms.ground_state_solvers"
                  ["GroundStateEigensolver"];
      SAssign "calc"
        (call "GroundStateEigensolver" [EName "qubit_converter"; EName "vqe_solver"] []);
      SAssign "res" (method "calc" "solve" [EName "es_problem"] []);
      print_ (EName "res") ].

Definition gs_cell_solve_numpy : cell :=
  Code 26
    [ SAssign "calc"
        (call "GroundStateEigensolver" [EName "qubit_converter"; EName "numpy_solver"] []);
      SAssign "res" (method "calc" "solve" [EName "es_problem"] []);
      print_ (EName "res") ].

(** The filter-function cell, split at the [DirectMapper] line. *)
Definition filter_head : list stmt :=
  [ SImportFrom "qiskit_nature.drivers" ["GaussianForcesDriver"];
    SImportFrom
      "qiskit_nature.algorithms.ground_state_solvers.minimum_eigensolver_factories"
      ["NumPyMinimumEigensolverFactory"];
    SImportFrom
      "qiskit_nature.problems.second_quantization.vibrational.vibrational_structure_problem"
      ["VibrationalStructureProblem"];
    SImportFrom "qiskit_nature.mappers.second_quantization" ["DirectMapper"];
    SAssign "driver"
      (call "GaussianForcesDriver" []
         [("logfile", EStr "aux_files/CO2_freq_B3LYP_ccpVDZ.log")]);
    SAssign "vib_problem"
      (call "VibrationalStructureProblem" [EName "driver"]
         [("num_modals", EInt 2); ("truncation_order", EInt 2)]) ].

Definition direct_converter : expr :=
  call "QubitConverter" [call "DirectMapper" [] []] [].

Definition filter_direct_mapper : stmt := SAssign "qubit_covnerter" direct_converter.

Definition newline : Ascii.ascii := Ascii.ascii_of_nat 10.

Definition two_newlines : string := String newline (String newline "").

Definition filter_tail : list stmt :=
  [ SAssign "solver_without_filter"
      (call "NumPyMinimumEigensolverFactory" []
         [("use_default_filter_criterion", EBool false)]);
    SAssign "solver_with_filter"
      (call "NumPyMinimumEigensolverFactory" []
         [("use_default_filter_criterion", EBool true)]);
    SAssign "gsc_wo"
      (call "GroundStateEigensolver"
         [EName "qubit_converter"; EName "solver_without_filter"] []);
    SAssign "result_wo" (method "gsc_wo" "solve" [EName "vib_problem"] []);
    SAssign "gsc_w"
      (call "GroundStateEigensolver"
         [EName "qubit_converter"; EName "solver_with_filter"] []);
    SAssign "result_w" (method "gsc_w" "solve" [EName "vib_problem"] []);
    print_ (EName "result_wo");
    print_ (EStr two_newlines);
    print_ (EName "result_w") ].

Definition gs_cell_filter : cell :=
  Code 16 (filter_head ++ [filter_direct_mapper] ++ filter_tail).

Definition ground_state_solvers : list cell :=
  [ Markdown; Markdown;
    gs_cell_problem;
    Markdown;
    gs_cell_numpy;
    Markdown;
    gs_cell_vqe;
    Markdown;
    gs_cell_two_local;
    Markdown;
    gs_cell_solve_vqe;
    Markdown;
    gs_cell_solve_numpy;
    Markdown; Markdown;
    gs_cell_filter;
    version_cell 17 ].

(** ** The electronic-structure tutorial *)

Definition electronic_structure : list cell :=
  [ Markdown; Markdown; Markdown; Markdown;
    Code 1
      [ SImportFrom "qiskit_nature.drivers" ["PySCFDriver"; "UnitsType"; "Molecule"];
        h2_molecule;
        h2_driver ];
    Markdown; Markdown;
    Code 2
      [ SImportFrom "qiskit_nature.problems.second_quantization.electronic"
                    ["ElectronicStructureProblem"];
        SImportFrom "qiskit_nature.operators.second_quantization.qubit_converter"
                    ["QubitConverter"];
        SImportFrom "qiskit_nature.mappers.second_quantization"
                    ["JordanWignerMapper"; "ParityMapper"] ];
    Code 3
      [ SAssign "es_problem" (call "ElectronicStructureProblem" [EName "driver"] []);
        SAssign "second_q_op" (method "es_problem" "second_q_ops" [] []);
        print_ (ESubscript (EName "second_q_op") (EInt 0)) ];
    Markdown;
    Code 4
      [ SAssign "qubit_converter"
          (call "QubitConverter" [] [("mapper", call "JordanWignerMapper" [] [])]);
        SAssign "qubit_op"
          (method "qubit_converter" "convert"
             [ESubscript (EName "second_q_op") (EInt 0)] []);
        print_ (EName "qubit_op") ];
    Markdown;
    Code 5
      [ SAssign "qubit_converter"
          (call "QubitConverter" []
             [("mapper", call "ParityMapper" [] []);
              ("two_qubit_reduction", EBool true)]);
        SAssign "qubit_op"
          (method "qubit_converter" "convert"
             [ESubscript (EName "second_q_op") (EInt 0)]
             [("num_particles", EAttr (EName "es_problem") "num_particles")]);
        print_ (EName "qubit_op") ];
    Markdown; Markdown;
    version_cell 6 ].

(** The ground-state tutorial around the [DirectMapper] line: everything
    before it, and everything after it. *)
Definition gs_prefix : list stmt :=
  notebook_program
    [ gs_cell_problem; gs_cell_numpy; gs_cell_vqe; gs_cell_two_local;
      gs_cell_solve_vqe; gs_cell_solve_numpy ]
  ++ filter_head.

Definition gs_suffix : list stmt := filter_tail ++ cell_source (version_cell 17).

(** The three example programs of the repository. *)
Definition examples : list (list stmt) :=
  [ readme_example;
    notebook_program ground_state_solvers;
    notebook_program electronic_structure ].

(** ** The programs as Python text

    [show_stmt] writes a statement back as one line of Python, with one
    space after each comma and none around the [=] of a keyword
    argument. *)

Fixpoint join (sep : string) (l : list string) : string :=
  match l with
  | [] => ""
  | [x] => x
  | x :: l' => x +:+ sep +:+ join sep l'
  end.

(** A string literal's body: a newline is written backslash-n. *)
Fixpoint escape (s : string) : string :=
  match s with
  | EmptyString => EmptyString
  | String c rest =>
      if Ascii.eqb c newline then String "\"%char (String "n"%char (escape rest))
      else String c (escape rest)
  end.

Definition show_binop (o : binop) : string :=
  match o with
  | BAdd => " + " | BSub => " - " | BMul => " * " | BDiv => " / "
  end.

Fixpoint show_expr (e : expr) : string :=
  match e with
  | EName x => x
  | EStr s => "'" +:+ escape s +:+ "'"
  | EInt n => NilZero.string_of_int (Z.to_int n)
  | EFloat l => l
  | EBool b => if b then "True" else "False"
  | EList es => "[" +:+ join ", " (map show_expr es) +:+ "]"
  | ETuple es => "(" +:+ join ", " (map show_expr es) +:+ ")"
  | EAttr e a => show_expr e +:+ "." +:+ a
  | ESubscript e i => show_expr e +:+ "[" +:+ show_expr i +:+ "]"
  | EBinOp o l r => show_expr l +:+ show_binop o +:+ show_expr r
  | ECall f args kwargs =>
      show_expr f +:+ "("
        +:+ join ", " (map show_expr args
                       ++ map (fun kw => match kw with
                                         | (k, v) => k +:+ "=" +:+ show_expr v
                                         end) kwargs)
        +:+ ")"
  | EAwait e => "await " +:+ show_expr e
  | EYield e => "yield " +:+ show_expr e
  end.

Definition show_stmt (s : stmt) : string :=
  match s with
  | SImportFrom m names => "from " +:+ m +:+ " import " +:+ join ", " names
  | SImport m => "import " +:+ m
  | SAssign x e => x +:+ " = " +:+ show_expr e
  | SExpr e => show_expr e
  | SMagic line => "%" +:+ line
  | SOther _ => "..."
  end.

(** The code cells of a notebook as Python text. *)
Definition show_notebook (nb : list cell) : list (N * list string) :=
  omap (fun c => match c with
                 | Markdown => None
                 | Code n src => Some (n, map show_stmt src)
                 end) nb.

(** ** Static structure of a program *)

(** The names an expression reads, in evaluation order. *)
Fixpoint expr_reads (e : expr) : list string :=
  match e with
  | EName x => [x]
  | EStr _ | EInt _ | EFloat _ | EBool _ => []
  | EList es | ETuple es => flat_map expr_reads es
  | EAttr e _ => expr_reads e
  | ESubscript e i => expr_reads e ++ expr_reads i
  | EBinOp _ l r => expr_reads l ++ expr_reads r
  | ECall f args kwargs =>
      expr_reads f ++ flat_map expr_reads args
        ++ flat_map (fun kw => match kw with (_, v) => expr_reads v end) kwargs
  | EAwait e | EYield e => expr_reads e
  end.

(** Whether an expression contains a coroutine expression. *)
Fixpoint has_coroutine (e : expr) : bool :=
  match e with
  | EName _ | EStr _ | EInt _ | EFloat _ | EBool _ => false
  | EList es | ETuple es => existsb has_coroutine es
  | EAttr e _ => has_coroutine e
  | ESubscript e i => has_coroutine e || has_coroutine i
  | EBinOp _ l r => has_coroutine l || has_coroutine r
  | ECall f args kwargs =>
      has_coroutine f || existsb has_coroutine args
        || existsb (fun kw => match kw with (_, v) => has_coroutine v end) kwargs
  | EAwait _ | EYield _ => true
  end.

Definition mem (x : string) (l : list string) : bool := existsb (String.eqb x) l.

Definition subset (l l' : list string) : bool := forallb (fun x => mem x l') l.

(** [import a.b.c] binds the name [a]. *)
Fixpoint top_package (m : string) : string :=
  match m with
  | EmptyString => EmptyString
  | String c rest => if Ascii.eqb c "."%char then EmptyString else String c (top_package rest)
  end.

Definition stmt_expr (s : stmt) : option expr :=
  match s with
  | SAssign _ e | SExpr e => Some e
  | _ => None
  end.

Definition stmt_reads (s : stmt) : list string :=
  match stmt_expr s with
  | Some e => expr_reads e
  | None => []
  end.

Definition stmt_binds (s : stmt) : list string :=
  match s with
  | SImportFrom _ names => names
  | SImport m => [top_package m]
  | SAssign x _ => [x]
  | SExpr _ | SMagic _ | SOther _ => []
  end.

Definition binds (p : list stmt) : list string := flat_map stmt_binds p.

Definition reads (p : list stmt) : list string := flat_map stmt_reads p.

(** A statement the semantics executes: not an [SOther], no coroutine
    expression. *)
Definition simple_stmt (s : stmt) : bool :=
  match s with
  | SOther _ => false
  | SAssign _ e | SExpr e => negb (has_coroutine e)
  | SImportFrom _ _ | SImport _ | SMagic _ => true
  end.

Definition straight_line (p : list stmt) : bool := forallb simple_stmt p.

(** Every name a statement reads is bound before the statement runs:
    by the builtins, or by an earlier import or assignment. *)
Fixpoint well_scoped (bound : list string) (p : list stmt) : bool :=
  match p with
  | [] => true
  | s :: p' => subset (stmt_reads s) bound && well_scoped (stmt_binds s ++ bound) p'
  end.

Definition builtins : list string := ["print"].

(** The expression most recently assigned to [x] by a program. *)
Fixpoint last_assigned (x : string) (p : list stmt) (acc : option expr) : option expr :=
  match p with
  | [] => acc
  | SAssign y e :: p' => last_assigned x p' (if String.eqb x y then Some e else acc)
  | s :: p' => last_assigned x p' (if mem x (stmt_binds s) then None else acc)
  end.

(** *** Statement kinds *)











(** *** The call sequence of section 6 of the specification *)

Inductive phase : Type := Driver | Problem | Converter | Solver | Invocation | Report.

Definition rank (ph : phase) : nat :=
  match ph with
  | Driver => 0 | Problem => 1 | Converter => 2
  | Solver => 3 | Invocation => 4 | Report => 5
  end.

Definition function_phase (f : string) : option phase :=
  if mem f ["PySCFDriver"; "GaussianForcesDriver"] then Some Driver
  else if mem f ["ElectronicStructureProblem"; "VibrationalStructureProblem"]
  then Some Problem
  else if mem f ["QubitConverter"] then Some Converter
  else if mem f ["VQE"; "NumPyMinimumEigensolver"; "VQEUCCFactory";
                 "NumPyMinimumEigensolverFactory"; "GroundStateEigensolver"]
  then Some Solver
  else if mem f ["print"] then Some Report
  else None.

Definition method_phase (m : string) : option phase :=
  if mem m ["solve"; "compute_minimum_eigenvalue"] then Some Invocation
  else if mem m ["interpret"] then Some Report
  else None.

Definition expr_phase (e : expr) : option phase :=
  match e with
  | ECall (EName f) _ _ => function_phase f
  | ECall (EAttr _ m) _ _ => method_phase m
  | _ => None
  end.

Definition stmt_phase (s : stmt) : option phase :=
  match stmt_expr s with
  | Some e => expr_phase e
  | None => None
  end.

(** The phases of a program, in statement order; statements that belong to
    no phase (imports, supporting objects) are skipped. *)
Definition phases (p : list stmt) : list phase := omap stmt_phase p.

Fixpoint ordered (l : list phase) : bool :=
  match l with
  | a :: ((b :: _) as l') => Nat.leb (rank a) (rank b) && ordered l'
  | _ => true
  end.

Definition occurs (ph : phase) (l : list phase) : bool :=
  existsb (fun ph' => Nat.eqb (rank ph) (rank ph')) l.

(** The call phases that come before a call phase; a report asks for
    none. *)
Definition earlier (ph : phase) : list phase :=
  match ph with
  | Report => []
  | _ => filter (fun q => Nat.ltb (rank q) (rank ph))
                [Driver; Problem; Converter; Solver; Invocation]
  end.

(** Each step comes after a step of every earlier call phase. *)
Fixpoint preceded (seen : list phase) (l : list phase) : bool :=
  match l with
  | [] => true
  | ph :: l' => forallb (fun q => occurs q seen) (earlier ph) && preceded (ph :: seen) l'
  end.

Definition respects_precedence (p : list stmt) : bool := preceded [] (phases p).

(** Every problem is constructed from a name that is bound, at that point,
    to the result of a driver construction.  [drivers] are the names so
    bound. *)
Fixpoint problems_from_drivers (drivers : list string) (p : list stmt) : bool :=
  match p with
  | [] => true
  | s :: p' =>
      match stmt_phase s, stmt_expr s with
      | Some Problem, Some (ECall _ (EName d :: _) _) => mem d drivers
      | Some Problem, _ => false
      | _, _ => true
      end
      && problems_from_drivers
           (match stmt_phase s, s with
            | Some Driver, SAssign x _ => x :: drivers
            | _, _ => filter (fun d => negb (mem d (stmt_binds s))) drivers
            end) p'
  end.

(** The statements after the first eigensolver invocation. *)
Fixpoint after_invocation (p : list stmt) : list stmt :=
  match p with
  | [] => []
  | s :: p' =>
      match stmt_phase s with
      | Some Invocation => p'
      | _ => after_invocation p'
      end
  end.

Definition is_report (s : stmt) : bool :=
  match stmt_phase s with
  | Some Report => true
  | _ => false
  end.

(** Driver, then problem, then converter, then eigensolver construction and
    invocation, each present and in this order, followed only by report
    statements. *)
Definition follows_call_sequence (p : list stmt) : bool :=
  ordered (phases p)
  && forallb (fun ph => occurs ph (phases p))
             [Driver; Problem; Converter; Solver; Invocation]
  && forallb is_report (after_invocation p).

(** ** Semantics *)

(** Values.  [VObj] is a reference to an object owned by the framework; the
    object itself lives in the framework's world. *)
Inductive value : Type :=
| VNone
| VBool (b : bool)
| VInt (n : Z)
| VFloat (literal : string)
| VStr (s : string)
| VList (items : list value)
| VTuple (items : list value)
| VObj (id : N)
| VBuiltin (name : string).

(** The operations a program asks of the world outside its own text.  A
    call enters the code of the callee.  The other operations are performed
    by the program itself, in its own frame, with Python's runtime deciding
    the answer from the value at hand: an import, an attribute read, a
    subscript, an operator, the rendering of a value as text, the write of
    the rendered texts to standard output, and an IPython magic. *)
Inductive op : Type :=
| OImport (module : string) (name : option string)
| OCall (f : value) (args : list value) (kwargs : list (string * value))
| OGetAttr (v : value) (attr : string)
| OSubscript (v index : value)
| OBinOp (o : binop) (l r : value)
| OStr (v : value)
| OWrite (texts : list value)
| OMagic (line : string).

(** What a run leaves behind: each external operation with its answer
    ([inl] an exception object, [inr] a result) and each [print]. *)
Inductive event : Type :=
| Ext (o : op) (answer : value + value)
| Printed (texts : list value).

Inductive exn : Type :=
| NameError (x : string)
| Unsupported
| Raised (x : value).

Inductive outcome (A : Type) : Type :=
| Done (a : A)
| Failed (e : exn).

Arguments Done {A} a.
Arguments Failed {A} e.

(** The global namespace, the framework's world, and the events so far,
    newest first. *)
Record state (World : Type) : Type := State {
  env : gmap string value;
  world : World;
  log : list event
}.

Arguments State {World} env world log.
Arguments env {World} s.
Arguments world {World} s.
Arguments log {World} s.

Definition M (World A : Type) : Type := state World -> outcome A * state World.

Definition ret {World A : Type} (a : A) : M World A := fun s => (Done a, s).

Definition fail {World A : Type} (e : exn) : M World A := fun s => (Failed e, s).

Definition bind {World A B : Type} (m : M World A) (k : A -> M World B) : M World B :=
  fun s =>
    match m s with
    | (Done a, s') => k a s'
    | (Failed e, s') => (Failed e, s')
    end.

Notation "x <~ m ;; k" := (bind m (fun x => k))
  (at level 100, m at next level, right associativity).

Fixpoint sequence {World A : Type} (ms : list (M World A)) : M World (list A) :=
  match ms with
  | [] => ret []
  | m :: ms' => a <~ m ;; r <~ sequence ms' ;; ret (a :: r)
  end.

Definition lookup_name {World : Type} (x : string) : M World value :=
  fun s =>
    match env s !! x with
    | Some v => (Done v, s)
    | None => (Failed (NameError x), s)
    end.

Definition bind_name {World : Type} (x : string) (v : value) : M World unit :=
  fun s => (Done tt, State (<[x:=v]> (env s)) (world s) (log s)).

Definition record {World : Type} (ev : event) : M World unit :=
  fun s => (Done tt, State (env s) (world s) (ev :: log s)).

Definition initial_env : gmap string value := {["print" := VBuiltin "print"]}.

Definition initial {World : Type} (w : World) : state World := State initial_env w [].

(** The texts printed, oldest first. *)
Definition printed (l : list event) : list (list value) :=
  omap (fun ev => match ev with Printed t => Some t | Ext _ _ => None end) (rev l).

Section Semantics.

Context {World : Type}.

(** The framework, Python's runtime, the import machinery and standard
    output: any function from the world and an operation to an answer and a
    new world. *)
Variable ext : World -> op -> (value + value) * World.

(** Perform an external operation; an exception it raises is the failure of
    the computation. *)
Definition ext_op (o : op) : M World value :=
  fun s =>
    match ext (world s) o with
    | (inr v, w') => (Done v, State (env s) w' (Ext o (inr v) :: log s))
    | (inl x, w') => (Failed (Raised x), State (env s) w' (Ext o (inl x) :: log s))
    end.

(** [print] renders a string as itself and asks the value for its text
    otherwise; it then writes the texts, which can fail like any other
    operation. *)
Definition render (v : value) : M World value :=
  match v with
  | VStr _ => ret v
  | _ => ext_op (OStr v)
  end.

Definition apply (f : value) (args : list value) (kwargs : list (string * value))
  : M World value :=
  match f with
  | VBuiltin "print" =>
      texts <~ sequence (map render args) ;;
      _ <~ ext_op (OWrite texts) ;;
      _ <~ record (Printed texts) ;;
      ret VNone
  | _ => ext_op (OCall f args kwargs)
  end.

(** Expressions evaluate left to right: the callee, then the positional
    arguments, then the keyword arguments. *)
Fixpoint eval (e : expr) : M World value :=
  match e with
  | EName x => lookup_name x
  | EStr s => ret (VStr s)
  | EInt n => ret (VInt n)
  | EFloat l => ret (VFloat l)
  | EBool b => ret (VBool b)
  | EList es => vs <~ sequence (map eval es) ;; ret (VList vs)
  | ETuple es => vs <~ sequence (map eval es) ;; ret (VTuple vs)
  | EAttr e a => v <~ eval e ;; ext_op (OGetAttr v a)
  | ESubscript e i => v <~ eval e ;; k <~ eval i ;; ext_op (OSubscript v k)
  | EBinOp o l r => a <~ eval l ;; b <~ eval r ;; ext_op (OBinOp o a b)
  | ECall f args kwargs =>
      vf <~ eval f ;;
      vs <~ sequence (map eval args) ;;
      kws <~ sequence (map (fun kw => match kw with
                                      | (k, e) => v <~ eval e ;; ret (k, v)
                                      end) kwargs) ;;
      apply vf vs kws
  | EAwait _ | EYield _ => fail Unsupported
  end.

Definition import_name (m n : string) : M World unit :=
  v <~ ext_op (OImport m (Some n)) ;; bind_name n v.

Fixpoint import_names (m : string) (names : list string) : M World unit :=
  match names with
  | [] => ret tt
  | n :: names' => _ <~ import_name m n ;; import_names m names'
  end.

Definition exec_stmt (s : stmt) : M World unit :=
  match s with
  | SImportFrom m names => import_names m names
  | SImport m => v <~ ext_op (OImport m None) ;; bind_name (top_package m) v
  | SAssign x e => v <~ eval e ;; bind_name x v
  | SExpr e => _ <~ eval e ;; ret tt
  | SMagic line => _ <~ ext_op (OMagic line) ;; ret tt
  | SOther _ => fail Unsupported
  end.

(** Statements run one after the other; the first failure ends the run. *)
Fixpoint exec (p : list stmt) : M World unit :=
  match p with
  | [] => ret tt
  | s :: p' => _ <~ exec_stmt s ;; exec p'
  end.

Definition run (p : list stmt) (w : World) : outcome unit * state World :=
  exec p (initial w).

End Semantics.

(** ** Two small frameworks to run the examples on *)

(** Every operation succeeds.  The world counts the attribute reads so far;
    calls, subscripts and operators return an object named after the
    current count, an object renders as itself. *)
Definition counting_framework (w : N) (o : op) : (value + value) * N :=
  match o with
  | OImport _ _ => (inr (VObj 0), w)
  | OGetAttr _ _ => (inr (VObj (N.succ w)), N.succ w)
  | OCall _ _ _ | OSubscript _ _ | OBinOp _ _ _ => (inr (VObj w), w)
  | OStr v => (inr v, w)
  | OWrite _ | OMagic _ => (inr VNone, w)
  end.

(** The chemistry package behind the driver is missing: imports and
    attribute reads succeed, every call raises. *)
Definition missing_pyscf (w : unit) (o : op) : (value + value) * unit :=
  match o with
  | OCall _ _ _ => (inl (VStr "PySCF is not installed"), w)
  | _ => (inr (VObj 0), w)
  end.

(** ** Properties of computations and of runs *)

(** A computation that leaves the namespace as it found it. *)
Definition preserves_env {World A : Type} (m : M World A) : Prop :=
  forall s r s', m s = (r, s') -> env s' = env s.

(** A computation that only adds events, in front of the earlier ones. *)
Definition extends_log {World A : Type} (m : M World A) : Prop :=
  forall s r s', m s = (r, s') -> exists l, log s' = l ++ log s.

(** Every name of [bound] has a value. *)
Definition covers (bound : list string) (names : gmap string value) : Prop :=
  forall x, mem x bound = true -> is_Some (names !! x).

(** The run failed with the exception [x] that the external operation [o]
    raised; [o] is the newest event, and the world is as [o] left it. *)
Definition external_failure {World : Type}
  (ext : World -> op -> (value + value) * World) (ex : exn) (s' : state World) : Prop :=
  exists o x w rest,
    ex = Raised x /\ log s' = Ext o (inl x) :: rest /\ ext w o = (inl x, world s').

(** A computation that, where the names of [bound] have values, fails only
    by an external failure. *)
Definition safe {World : Type} (ext : World -> op -> (value + value) * World)
  (bound : list string) (A : Type) (m : M World A) : Prop :=
  preserves_env m /\
  forall s ex s', covers bound (env s) -> m s = (Failed ex, s') ->
                  external_failure ext ex s'.

(** Two states that differ at most in the value of [x] and in the external
    operations logged: same world, same printed texts, same value for every
    other name. *)
Definition sim {World : Type} (x : string) (s1 s2 : state World) : Prop :=
  world s1 = world s2 /\ printed (log s1) = printed (log s2) /\
  forall y, y <> x -> env s1 !! y = env s2 !! y.

(** A computation that cannot tell such states apart. *)
Definition respects {World : Type} (x : string) (A : Type) (m : M World A) : Prop :=
  forall s1 s2, sim x s1 s2 ->
    fst (m s1) = fst (m s2) /\ sim x (snd (m s1)) (snd (m s2)).

(** An expression that reads only names [ok] allows and, unless [lenient],
    contains no coroutine expression. *)
Definition admissible (ok : string -> bool) (lenient : bool) (e : expr) : Prop :=
  forallb ok (expr_reads e) = true /\ (lenient || negb (has_coroutine e)) = true.

(** The call sequence as the specification words it: each example goes
    through driver, problem, converter, eigensolver construction and
    invocation in this order and then only reports, and reads no name
    before it is bound. *)
Definition call_sequence_claim : Prop :=
  Forall (fun p => follows_call_sequence p = true /\ well_scoped builtins p = true)
         examples.

(** The first positional argument of each [GroundStateEigensolver] call. *)
Definition solver_converters (p : list stmt) : list expr :=
  omap (fun s => match stmt_expr s with
                 | Some (ECall (EName "GroundStateEigensolver") (c :: _) _) => Some c
                 | _ => None
                 end) p.

(** ** Parts of the examples that later statements do not depend on *)

(** The README example around its initial state: the statements before
    [init_state = HartreeFock(...)], that statement, the statements from
    there to the compose call, and the statements after the compose call. *)
Definition readme_before_init : list stmt := firstn 16 readme_setup.

Definition readme_init_state : stmt :=
  SAssign "init_state"
    (call "HartreeFock"
       [EName "num_spin_orbitals"; EName "num_particles"; EName "converter"] []).

Definition readme_after_init : list stmt := skipn 17 readme_setup ++ [readme_ansatz].

Definition readme_tail : list stmt := readme_backend ++ readme_run.

(** The README example without the construction of the initial state and
    without the compose call. *)
Definition readme_without_initial_state : list stmt :=
  readme_before_init ++ readme_after_init ++ readme_tail.

(** The ground-state tutorial around the cell that builds a VQE solver from
    a [TwoLocal] circuit. *)
Definition gs_before_two_local : list stmt :=
  notebook_program [gs_cell_problem; gs_cell_numpy; gs_cell_vqe].

Definition gs_after_two_local : list stmt :=
  notebook_program
    [gs_cell_solve_vqe; gs_cell_solve_numpy; gs_cell_filter; version_cell 17].

(** The statements of the ground-state tutorial after its first code cell,
    and those of the electronic-structure tutorial after the cell that
    generates the second-quantized operators. *)
Definition gs_after_problem : list stmt :=
  skipn (length (cell_source gs_cell_problem)) (notebook_program ground_state_solvers).

Definition es_operators : list stmt := firstn 8 (notebook_program electronic_structure).

Definition es_after_operators : list stmt :=
  skipn 8 (notebook_program electronic_structure).

(** The first positional argument of each call of the method [m]. *)
Definition method_arguments (m : string) (p : list stmt) : list expr :=
  omap (fun s => match stmt_expr s with
                 | Some (ECall (EAttr _ m') (a :: _) _) =>
                     if String.eqb m m' then Some a else None
                 | _ => None
                 end) p.

(** The expressions that a program subscripts. *)
Fixpoint subscripted (e : expr) : list expr :=
  match e with
  | EName _ | EStr _ | EInt _ | EFloat _ | EBool _ => []
  | EList es | ETuple es => flat_map subscripted es
  | EAttr e _ | EAwait e | EYield e => subscripted e
  | ESubscript e i => e :: subscripted e ++ subscripted i
  | EBinOp _ l r => subscripted l ++ subscripted r
  | ECall f args kwargs =>
      subscripted f ++ flat_map subscripted args
        ++ flat_map (fun kw => match kw with (_, v) => subscripted v end) kwargs
  end.

(** No statement binds a name that an earlier statement has bound, or a
    name of [bound]. *)
Fixpoint single_assignment (bound : list string) (p : list stmt) : bool :=
  match p with
  | [] => true
  | s :: p' =>
      forallb (fun x => negb (mem x bound)) (stmt_binds s)
      && single_assignment (stmt_binds s ++ bound) p'
  end.

(** *** Printing *)

(** The argument of a statement [print(e)]. *)
Definition printed_expr (s : stmt) : option expr :=
  match s with
  | SExpr (ECall (EName f) [e] []) => if String.eqb f "print" then Some e else None
  | _ => None
  end.

(** A statement that is [print(e)] with [e] not mentioning [print], or that
    neither reads nor binds the name [print]. *)
Definition print_disciplined (s : stmt) : bool :=
  match printed_expr s with
  | Some e => negb (mem "print" (expr_reads e))
  | None => negb (mem "print" (stmt_reads s)) && negb (mem "print" (stmt_binds s))
  end.

(** The number of print statements of a program. *)
Definition print_count (p : list stmt) : nat := length (omap printed_expr p).

(** *** A framework in which only some methods change the world *)

(** An attribute read returns the pair of the object and the attribute
    name; calling such a pair changes the world (a counter) when the name is
    one of the methods that compute, and not otherwise; constructors do not
    change it; a value renders as itself, tagged. *)
Definition computing_methods : list string :=
  ["second_q_ops"; "convert"; "solve"; "compute_minimum_eigenvalue"; "interpret"].

Definition method_framework (w : N) (o : op) : (value + value) * N :=
  match o with
  | OImport _ _ => (inr (VObj 0), w)
  | OGetAttr v a => (inr (VTuple [v; VStr a]), w)
  | OCall (VTuple [_; VStr m]) _ _ =>
      if mem m computing_methods then (inr (VObj (N.succ w)), N.succ w)
      else (inr (VObj w), w)
  | OCall _ _ _ | OSubscript _ _ | OBinOp _ _ _ => (inr (VObj w), w)
  | OStr v => (inr (VTuple [VStr "str"; v]), w)
  | OWrite _ | OMagic _ => (inr VNone, w)
  end.

(** *** Properties of runs *)

(** Two runs that end the same way, print the same texts and leave the same
    world. *)
Definition same_result {World : Type} (r1 r2 : outcome unit * state World) : Prop :=
  fst r1 = fst r2
  /\ printed (log (snd r1)) = printed (log (snd r2))
  /\ world (snd r1) = world (snd r2).

(** Statements that, run in the state [s], complete without changing the
    world or printing. *)
Definition observably_pure {World : Type}
  (ext : World -> op -> (value + value) * World) (p : list stmt) (s : state World)
  : Prop :=
  exists s', exec ext p s = (Done tt, s')
             /\ world s' = world s /\ printed (log s') = printed (log s).

(** Two states that differ at most in the values of the names [xs] and in
    the external operations logged. *)
Definition sim_on {World : Type} (xs : list string) (s1 s2 : state World) : Prop :=
  world s1 = world s2 /\ printed (log s1) = printed (log s2) /\
  forall y, mem y xs = false -> env s1 !! y = env s2 !! y.

Definition respects_on {World : Type} (xs : list string) (A : Type) (m : M World A)
  : Prop :=
  forall s1 s2, sim_on xs s1 s2 ->
    fst (m s1) = fst (m s2) /\ sim_on xs (snd (m s1)) (snd (m s2)).

(** Only names of [bound] have a value. *)
Definition within (bound : list string) (names : gmap string value) : Prop :=
  forall x, is_Some (names !! x) -> mem x bound = true.

(** The framework never hands out the builtin [print]. *)
Definition no_print_leak {World : Type}
  (ext : World -> op -> (value + value) * World) : Prop :=
  forall w o v w', ext w o = (inr v, w') -> v <> VBuiltin "print".

Definition not_print (v : value) : Prop := v <> VBuiltin "print".

(** [print] names the builtin, and no other name does. *)
Definition print_is_builtin (names : gmap string value) : Prop :=
  names !! "print" = Some (VBuiltin "print")
  /\ forall x, x <> "print" -> names !! x <> Some (VBuiltin "print").

(** A computation that, where [print] is the builtin, keeps the namespace,
    prints nothing, and returns only results satisfying [P]. *)
Definition quiet {World A : Type} (P : A -> Prop) (m : M World A) : Prop :=
  forall s r s', print_is_builtin (env s) -> m s = (r, s') ->
    env s' = env s /\ printed (log s') = printed (log s)
    /\ forall a, r = Done a -> P a.

(** ** Where a failure comes from *)




(** ** The order in which the cells were executed *)








(** ** The transcriptions, read back as Python *)

Example readme_example_text :
  map show_stmt readme_example =
  [ "from qiskit_nature.drivers import PySCFDriver, UnitsType";
    "from qiskit_nature.problems.second_quantization.electronic import ElectronicStructureProblem";
    "driver = PySCFDriver(atom='H .0 .0 .0; H .0 .0 0.735', unit=UnitsType.ANGSTROM, basis='sto3g')";
    "problem = ElectronicStructureProblem(driver)";
    "second_q_ops = problem.second_q_ops()";
    "main_op = second_q_ops[0]";
    "num_particles = (problem.molecule_data_transformed.num_alpha, problem.molecule_data_transformed.num_beta)";
    "num_spin_orbitals = 2 * problem.molecule_data.num_molecular_orbitals";
    "from qiskit.algorithms.optimizers import L_BFGS_B";
    "optimizer = L_BFGS_B()";
    "from qiskit_nature.mappers.second_quantization import ParityMapper";
    "from qiskit_nature.operators.second_quantization.qubit_converter import QubitConverter";
    "mapper = ParityMapper()";
    "converter = QubitConverter(mapper=mapper, two_qubit_reduction=True)";
    "qubit_op = converter.convert(main_op, num_particles=num_particles)";
    "from qiskit_nature.circuit.library import HartreeFock";
    "init_state = HartreeFock(num_spin_orbitals, num_particles, converter)";
    "from qiskit.circuit.library import TwoLocal";
    "ansatz = TwoLocal(num_spin_orbitals, ['ry', 'rz'], 'cz')";
    "ansatz.compose(init_state, front=True)";
    "from qiskit import Aer";
    "backend = Aer.get_backend('statevector_simulator')";
    "from qiskit.algorithms import VQE";
    "algorithm = VQE(ansatz, optimizer=optimizer, quantum_instance=backend)";
    "result = algorithm.compute_minimum_eigenvalue(qubit_op)";
    "print(result.eigenvalue.real)";
    "electronic_structure_result = problem.interpret(result)";
    "print(electronic_structure_result)" ].
Proof. reflexivity. Qed.

Example ground_state_solvers_text :
  show_notebook ground_state_solvers =
  [ (21%N,
     [ "from qiskit import Aer";
       "from qiskit_nature.drivers import PySCFDriver, UnitsType, Molecule";
       "from qiskit_nature.problems.second_quantization.electronic import ElectronicStructureProblem";
       "from qiskit_nature.operators.second_quantization.qubit_converter import QubitConverter";
       "from qiskit_nature.mappers.second_quantization import JordanWignerMapper";
       "molecule = Molecule(geometry=[['H', [0., 0., 0.]], ['H', [0., 0., 0.735]]], charge=0, multiplicity=1)";
       "driver = PySCFDriver(molecule=molecule, unit=UnitsType.ANGSTROM, basis='sto3g')";
       "es_problem = ElectronicStructureProblem(driver)";
       "qubit_converter = QubitConverter(JordanWignerMapper())" ]);
    (22%N,
     [ "from qiskit.algorithms import NumPyMinimumEigensolver";
       "numpy_solver = NumPyMinimumEigensolver()" ]);
    (23%N,
     [ "from qiskit.providers.aer import StatevectorSimulator";
       "from qiskit import Aer";
       "from qiskit.utils import QuantumInstance";
       "from qiskit_nature.algorithms.ground_state_solvers.minimum_eigensolver_factories import VQEUCCFactory";
       "quantum_instance = QuantumInstance(backend=Aer.get_backend('statevector_simulator'))";
       "vqe_solver = VQEUCCFactory(quantum_instance)" ]);
    (24%N,
     [ "from qiskit.algorithms import VQE";
       "from qiskit.circuit.library import TwoLocal";
       "tl_circuit = TwoLocal(rotation_blocks=['h', 'rx'], entanglement_blocks='cz', entanglement='full', reps=3, parameter_prefix='y')";
       "tl_circuit.draw(output='mpl')";
       "another_solver = VQE(ansatz=tl_circuit, quantum_instance=QuantumInstance(Aer.get_backend('statevector_simulator')))" ]);
    (25%N,
     [ "from qiskit_nature.algorithms.ground_state_solvers import GroundStateEigensolver";
       "calc = GroundStateEigensolver(qubit_converter, vqe_solver)";
       "res = calc.solve(es_problem)";
       "print(res)" ]);
    (26%N,
     [ "calc = GroundStateEigensolver(qubit_converter, numpy_solver)";
       "res = calc.solve(es_problem)";
       "print(res)" ]);
    (16%N,
     [ "from qiskit_nature.drivers import GaussianForcesDriver";
       "from qiskit_nature.algorithms.ground_state_solvers.minimum_eigensolver_factories import NumPyMinimumEigensolverFactory";
       "from qiskit_nature.problems.second_quantization.vibrational.vibrational_structure_problem import VibrationalStructureProblem";
       "from qiskit_nature.mappers.second_quantization import DirectMapper";
       "driver = GaussianForcesDriver(logfile='aux_files/CO2_freq_B3LYP_ccpVDZ.log')";
       "vib_problem = VibrationalStructureProblem(driver, num_modals=2, truncation_order=2)";
       "qubit_covnerter = QubitConverter(DirectMapper())";
       "solver_without_filter = NumPyMinimumEigensolverFactory(use_default_filter_criterion=False)";
       "solver_with_filter = NumPyMinimumEigensolverFactory(use_default_filter_criterion=True)";
       "gsc_wo = GroundStateEigensolver(qubit_converter, solver_without_filter)";
       "result_wo = gsc_wo.solve(vib_problem)";
       "gsc_w = GroundStateEigensolver(qubit_converter, solver_with_filter)";
       "result_w = gsc_w.solve(vib_problem)";
       "print(result_wo)";
       "print('\n\n')";
       "print(result_w)" ]);
    (17%N,
     [ "import qiskit.tools.jupyter";
       "%qiskit_version_table";
       "%qiskit_copyright" ]) ].
Proof. reflexivity. Qed.

Example electronic_structure_text :
  show_notebook electronic_structure =
  [ (1%N,
     [ "from qiskit_nature.drivers import PySCFDriver, UnitsType, Molecule";
       "molecule = Molecule(geometry=[['H', [0., 0., 0.]], ['H', [0., 0., 0.735]]], charge=0, multiplicity=1)";
       "driver = PySCFDriver(molecule=molecule, unit=UnitsType.ANGSTROM, basis='sto3g')" ]);
    (2%N,
     [ "from qiskit_nature.problems.second_quantization.electronic import ElectronicStructureProblem";
       "from qiskit_nature.operators.second_quantization.qubit_converter import QubitConverter";
       "from qiskit_nature.mappers.second_quantization import JordanWignerMapper, ParityMapper" ]);
    (3%N,
     [ "es_problem = ElectronicStructureProblem(driver)";
       "second_q_op = es_problem.second_q_ops()";
       "print(second_q_op[0])" ]);
    (4%N,
     [ "qubit_converter = QubitConverter(mapper=JordanWignerMapper())";
       "qubit_op = qubit_converter.convert(second_q_op[0])";
       "print(qubit_op)" ]);
    (5%N,
     [ "qubit_converter = QubitConverter(mapper=ParityMapper(), two_qubit_reduction=True)";
       "qubit_op = qubit_converter.convert(second_q_op[0], num_particles=es_problem.num_particles)";
       "print(qubit_op)" ]);
    (6%N,
     [ "import qiskit.tools.jupyter";
       "%qiskit_version_table";
       "%qiskit_copyright" ]) ].
Proof. reflexivity. Qed.

(** ** General facts about the semantics *)

Lemma mem_true x l : mem x l = true <-> In x l.
Proof.
  unfold mem. rewrite existsb_exists. split.
  - intros (y & Hy & E). apply String.eqb_eq in E. subst. assumption.
  - intros H. exists x. split; [assumption|apply String.eqb_refl].
Qed.

Lemma mem_app x l l' : mem x (l ++ l') = mem x l || mem x l'.
Proof. apply existsb_app. Qed.

Lemma mem_cons_false x y l : mem x (y :: l) = false -> x <> y /\ mem x l = false.
Proof.
  simpl. intros H. apply orb_false_iff in H as [H1 H2].
  split; [apply String.eqb_neq; assumption|assumption].
Qed.

Lemma forallb_flat_map {A B : Type} (ok : B -> bool) (f : A -> list B) (l : list A) :
  forallb ok (flat_map f l) = true -> Forall (fun a => forallb ok (f a) = true) l.
Proof.
  induction l as [|a l IH]; simpl; intros H; constructor;
    rewrite forallb_app in H; apply andb_true_iff in H; [tauto|apply IH; tauto].
Qed.

Lemma existsb_false_Forall {A : Type} (f : A -> bool) (l : list A) :
  existsb f l = false -> Forall (fun a => f a = false) l.
Proof.
  induction l as [|a l IH]; simpl; intros H; constructor;
    apply orb_false_iff in H; [tauto|apply IH; tauto].
Qed.

Lemma Forall_map_intro {A B : Type} (P : B -> Prop) (f : A -> B) (l : list A) :
  Forall (fun x => P (f x)) l -> Forall P (map f l).
Proof. induction 1; simpl; constructor; assumption. Qed.

Lemma list_all_Forall {A : Type} (P : A -> Prop) (l : list A) :
  list_all A P l -> Forall P l.
Proof. induction 1; constructor; assumption. Qed.

Lemma Forall_mp {A : Type} (P Q : A -> Prop) (l : list A) :
  Forall (fun a => P a -> Q a) l -> Forall P l -> Forall Q l.
Proof. induction 1; inversion 1; subst; constructor; auto. Qed.

Section Facts.

Context {World : Type}.

Variable ext : World -> op -> (value + value) * World.

Lemma bind_inv {A B : Type} (m : M World A) (k : A -> M World B) s r s' :
  bind m k s = (r, s') ->
  (exists a s1, m s = (Done a, s1) /\ k a s1 = (r, s'))
  \/ (exists e, m s = (Failed e, s') /\ r = Failed e).
Proof.
  unfold bind. destruct (m s) as [[a|e] s1]; intros H.
  - left. eauto.
  - right. inversion H; subst. eauto.
Qed.

Lemma ext_op_inv o s r s' :
  ext_op ext o s = (r, s') ->
  env s' = env s /\
  exists a, ext (world s) o = (a, world s') /\ log s' = Ext o a :: log s /\
            r = match a with inr v => Done v | inl x => Failed (Raised x) end.
Proof.
  unfold ext_op. destruct (ext (world s) o) as [[x|v] w'] eqn:E;
    intros H; inversion H; subst; simpl; eauto.
Qed.

Lemma exec_app p q s :
  exec ext (p ++ q) s =
  match exec ext p s with
  | (Done _, s') => exec ext q s'
  | (Failed e, s') => (Failed e, s')
  end.
Proof.
  revert s. induction p as [|st p IH]; intros s; simpl; [reflexivity|].
  unfold bind. destruct (exec_stmt ext st s) as [[[]|e] s1]; [apply IH|reflexivity].
Qed.

(** *** Properties preserved by every construct

    A property [Q] of computations that holds of the primitive computations
    and is preserved by [bind] holds of the evaluation of expressions and of
    the execution of statements.  [ok] restricts the names that may be
    read; unless [lenient], unsupported constructs are excluded. *)

Section Closure.

Variable Q : forall A : Type, M World A -> Prop.

Variable ok : string -> bool.

Variable lenient : bool.

Hypothesis Q_ret : forall (A : Type) (a : A), Q A (ret a).

Hypothesis Q_bind : forall (A B : Type) (m : M World A) (k : A -> M World B),
  Q A m -> (forall a, Q B (k a)) -> Q B (bind m k).

Hypothesis Q_ext_op : forall o, Q value (ext_op ext o).

Hypothesis Q_record : forall ev, Q unit (record ev).

Hypothesis Q_lookup : forall x, ok x = true -> Q value (lookup_name x).

Hypothesis Q_unsupported : lenient = true -> forall A : Type, Q A (fail Unsupported).

Lemma Q_sequence {A : Type} (ms : list (M World A)) :
  Forall (Q A) ms -> Q (list A) (sequence ms).
Proof.
  induction 1 as [|m ms Hm _ IH]; simpl; [apply Q_ret|].
  apply Q_bind; [assumption|]. intros a.
  apply Q_bind; [assumption|]. intros r. apply Q_ret.
Qed.

Lemma Q_render v : Q value (render ext v).
Proof. destruct v; simpl; auto. Qed.

Lemma Q_apply f args kwargs : Q value (apply ext f args kwargs).
Proof.
  assert (Hp : Q value (texts <~ sequence (map (render ext) args) ;;
                        _ <~ ext_op ext (OWrite texts) ;;
                        _ <~ record (Printed texts) ;; @ret World _ VNone)).
  { apply Q_bind.
    - apply Q_sequence, Forall_map_intro, Forall_forall.
      intros v _. apply Q_render.
    - intros texts. apply Q_bind; [apply Q_ext_op|]. intros _.
      apply Q_bind; [apply Q_record|]. intros _. apply Q_ret. }
  unfold apply.
  repeat (match goal with
          | |- context [match ?x with _ => _ end] => destruct x
          end; try apply Q_ext_op; try exact Hp).
Qed.

Lemma admissible_items (f : list expr -> expr) es :
  (forall es, expr_reads (f es) = flat_map expr_reads es) ->
  (forall es, has_coroutine (f es) = existsb has_coroutine es) ->
  admissible ok lenient (f es) -> Forall (admissible ok lenient) es.
Proof.
  intros Hr Hc [H1 H2]. rewrite Hr in H1. rewrite Hc in H2.
  apply forallb_flat_map in H1. apply Forall_forall. intros e He. split.
  - apply (proj1 (Forall_forall _ _) H1 e He).
  - destruct lenient; [reflexivity|]. simpl in *.
    apply negb_true_iff in H2. apply existsb_false_Forall in H2.
    apply negb_true_iff. apply (proj1 (Forall_forall _ _) H2 e He).
Qed.

Lemma admissible_split (r1 r2 : list string) (c1 c2 : bool) :
  forallb ok (r1 ++ r2) = true /\ (lenient || negb (c1 || c2)) = true ->
  (forallb ok r1 = true /\ (lenient || negb c1) = true)
  /\ (forallb ok r2 = true /\ (lenient || negb c2) = true).
Proof.
  rewrite forallb_app. intros [H1 H2]. apply andb_true_iff in H1.
  destruct lenient, c1, c2; simpl in *; try discriminate; tauto.
Qed.

Lemma Q_eval e : admissible ok lenient e -> Q value (eval ext e).
Proof.
  induction e as [x|s|n|l|b|es IH|es IH|e IH a|e IHe i IHi|o l IHl r IHr
                  |f IHf args IHargs kwargs IHkw|e IH|e IH]; intros Ha; simpl;
    try (apply Q_ret).
  - apply Q_lookup. destruct Ha as [H _]. simpl in H.
    apply andb_true_iff in H. tauto.
  - apply Q_bind; [|intros; apply Q_ret].
    apply Q_sequence, Forall_map_intro.
    apply (Forall_mp (admissible ok lenient)); [apply list_all_Forall, IH|].
    apply (admissible_items EList); auto.
  - apply Q_bind; [|intros; apply Q_ret].
    apply Q_sequence, Forall_map_intro.
    apply (Forall_mp (admissible ok lenient)); [apply list_all_Forall, IH|].
    apply (admissible_items ETuple); auto.
  - apply Q_bind; [auto|]. intros; apply Q_ext_op.
  - apply admissible_split in Ha as [H1 H2].
    apply Q_bind; [auto|]. intros. apply Q_bind; [auto|]. intros; apply Q_ext_op.
  - apply admissible_split in Ha as [H1 H2].
    apply Q_bind; [auto|]. intros. apply Q_bind; [auto|]. intros; apply Q_ext_op.
  - unfold admissible in Ha. simpl in Ha. rewrite <- orb_assoc in Ha.
    apply admissible_split in Ha as [Hf Ha].
    apply admissible_split in Ha as [Hargs Hkw].
    apply Q_bind; [auto|]. intros vf.
    apply Q_bind.
    { apply Q_sequence, Forall_map_intro.
      apply (Forall_mp (admissible ok lenient)); [apply list_all_Forall, IHargs|].
      apply (admissible_items EList); auto. }
    intros vs. apply Q_bind; [|intros; apply Q_apply].
    apply Q_sequence, Forall_map_intro.
    clear Hf Hargs IHf IHargs.
    induction IHkw as [|[k v] Hkv kws _ IH]; constructor.
    + inversion Hkv; subst. simpl in Hkw.
      apply admissible_split in Hkw as [Hv _].
      apply Q_bind; [auto|]. intros; apply Q_ret.
    + apply IH. simpl in Hkw. apply admissible_split in Hkw. tauto.
  - destruct Ha as [_ H]. simpl in H. rewrite orb_false_r in H. auto.
  - destruct Ha as [_ H]. simpl in H. rewrite orb_false_r in H. auto.
Qed.

Hypothesis Q_bind_name : forall x v, Q unit (bind_name x v).

Lemma Q_import_names m names : Q unit (import_names ext m names).
Proof.
  induction names as [|n names IH]; simpl; [apply Q_ret|].
  apply Q_bind; [|intros; assumption].
  apply Q_bind; [apply Q_ext_op|]. intros; apply Q_bind_name.
Qed.

Lemma Q_exec_stmt st :
  forallb ok (stmt_reads st) = true -> (lenient || simple_stmt st) = true ->
  Q unit (exec_stmt ext st).
Proof.
  intros Hr Hs. destruct st; simpl.
  - apply Q_import_names.
  - apply Q_bind; [apply Q_ext_op|]. intros; apply Q_bind_name.
  - apply Q_bind; [apply Q_eval; split; assumption|]. intros; apply Q_bind_name.
  - apply Q_bind; [apply Q_eval; split; assumption|]. intros; apply Q_ret.
  - apply Q_bind; [apply Q_ext_op|]. intros; apply Q_ret.
  - simpl in Hs. rewrite orb_false_r in Hs. auto.
Qed.

Lemma Q_exec p :
  forallb ok (reads p) = true -> (lenient || straight_line p) = true ->
  Q unit (exec ext p).
Proof.
  induction p as [|st p IH]; simpl; intros Hr Hs; [apply Q_ret|].
  unfold reads in Hr. simpl in Hr. rewrite forallb_app in Hr.
  apply andb_true_iff in Hr as [Hr1 Hr2].
  assert (Hs' : (lenient || simple_stmt st) = true
                /\ (lenient || straight_line p) = true).
  { destruct lenient; [split; reflexivity|]. simpl in *.
    apply andb_true_iff. assumption. }
  apply Q_bind; [apply Q_exec_stmt|intros; apply IH]; tauto.
Qed.

End Closure.

End Facts.

Section Consequences.

Context {World : Type}.

Variable ext : World -> op -> (value + value) * World.

Lemma preserves_env_bind {A B : Type} (m : M World A) (k : A -> M World B) :
  preserves_env m -> (forall a, preserves_env (k a)) -> preserves_env (bind m k).
Proof.
  intros Hm Hk s r s' H.
  destruct (bind_inv _ _ _ _ _ H) as [(a & s1 & H1 & H2) | (e & H1 & _)].
  - rewrite (Hk _ _ _ _ H2). eauto.
  - eauto.
Qed.

Lemma preserves_env_lookup x : preserves_env (@lookup_name World x).
Proof.
  intros s r s'. unfold lookup_name.
  destruct (env s !! x); intros H; inversion H; reflexivity.
Qed.

Lemma eval_preserves_env e : preserves_env (eval ext e).
Proof.
  apply (Q_eval ext (@preserves_env World) (fun _ => true) true).
  - intros A a s r s' H. inversion H. reflexivity.
  - intros A B. apply preserves_env_bind.
  - intros o s r s' H. apply ext_op_inv in H. tauto.
  - intros ev s r s' H. inversion H. reflexivity.
  - intros x _. apply preserves_env_lookup.
  - intros _ A s r s' H. inversion H. reflexivity.
  - split; [apply forallb_forall; reflexivity|reflexivity].
Qed.

(** *** The events of a run are added in front of the earlier ones *)

Lemma extends_log_pure {A : Type} (m : M World A) :
  (forall s r s', m s = (r, s') -> log s' = log s) -> extends_log m.
Proof. intros H s r s' E. exists []. simpl. eauto. Qed.

Lemma extends_log_bind {A B : Type} (m : M World A) (k : A -> M World B) :
  extends_log m -> (forall a, extends_log (k a)) -> extends_log (bind m k).
Proof.
  intros Hm Hk s r s' H.
  destruct (bind_inv _ _ _ _ _ H) as [(a & s1 & H1 & H2) | (e & H1 & _)].
  - destruct (Hm _ _ _ H1) as [l1 E1]. destruct (Hk _ _ _ _ H2) as [l2 E2].
    exists (l2 ++ l1). rewrite E2, E1. apply app_assoc.
  - eauto.
Qed.

Lemma exec_extends_log p : extends_log (exec ext p).
Proof.
  apply (Q_exec ext (@extends_log World) (fun _ => true) true).
  - intros A a. apply extends_log_pure. intros s r s' H. inversion H. reflexivity.
  - intros A B. apply extends_log_bind.
  - intros o s r s' H. apply ext_op_inv in H as (_ & a & _ & E & _).
    exists [Ext o a]. assumption.
  - intros ev s r s' H. inversion H. exists [ev]. reflexivity.
  - intros x _. apply extends_log_pure. intros s r s'. unfold lookup_name.
    destruct (env s !! x); intros H; inversion H; reflexivity.
  - intros _ A. apply extends_log_pure. intros s r s' H. inversion H. reflexivity.
  - intros x v. apply extends_log_pure. intros s r s' H. inversion H. reflexivity.
  - apply forallb_forall; reflexivity.
  - reflexivity.
Qed.

(** *** A name keeps its value until a statement binds it *)

Lemma import_names_frame m names x s r s' :
  mem x names = false -> import_names ext m names s = (r, s') ->
  env s' !! x = env s !! x.
Proof.
  revert s. induction names as [|n names IH]; simpl; intros s Hx H.
  - inversion H. reflexivity.
  - apply mem_cons_false in Hx as [Hne Hx].
    apply bind_inv in H as [([] & s1 & H1 & H2) | (e & H1 & _)].
    + rewrite (IH _ Hx H2). unfold import_name in H1.
      apply bind_inv in H1 as [(v & s0 & H0 & Hb) | (e & ? & ?)]; [|discriminate].
      inversion Hb; subst; simpl. apply ext_op_inv in H0 as [-> _].
      apply lookup_insert_ne. congruence.
    + unfold import_name in H1.
      apply bind_inv in H1 as [(v & s0 & H0 & Hb) | (e' & H0 & _)]; [discriminate|].
      apply ext_op_inv in H0 as [-> _]. reflexivity.
Qed.

Lemma exec_stmt_frame st x s r s' :
  mem x (stmt_binds st) = false -> exec_stmt ext st s = (r, s') ->
  env s' !! x = env s !! x.
Proof.
  destruct st as [m names|m|y e|e|line|k]; intros Hx H;
    unfold stmt_binds in Hx; simpl in H.
  - eapply import_names_frame; eassumption.
  - apply mem_cons_false in Hx as [Hne _].
    apply bind_inv in H as [(v & s1 & H1 & H2) | (e & H1 & _)];
      apply ext_op_inv in H1 as [E _].
    + inversion H2; subst; simpl. rewrite E. apply lookup_insert_ne. congruence.
    + rewrite E. reflexivity.
  - apply mem_cons_false in Hx as [Hne _].
    apply bind_inv in H as [(v & s1 & H1 & H2) | (e' & H1 & _)];
      apply eval_preserves_env in H1.
    + inversion H2; subst; simpl. rewrite H1. apply lookup_insert_ne. congruence.
    + rewrite H1. reflexivity.
  - apply bind_inv in H as [(v & s1 & H1 & H2) | (e' & H1 & _)];
      apply eval_preserves_env in H1.
    + inversion H2; subst. rewrite H1. reflexivity.
    + rewrite H1. reflexivity.
  - apply bind_inv in H as [(v & s1 & H1 & H2) | (e' & H1 & _)];
      apply ext_op_inv in H1 as [E _].
    + inversion H2; subst. rewrite E. reflexivity.
    + rewrite E. reflexivity.
  - inversion H. reflexivity.
Qed.

Lemma exec_frame p x s r s' :
  mem x (binds p) = false -> exec ext p s = (r, s') -> env s' !! x = env s !! x.
Proof.
  revert s. induction p as [|st p IH]; simpl; intros s Hx H.
  - inversion H. reflexivity.
  - unfold binds in Hx. simpl in Hx. rewrite mem_app in Hx.
    apply orb_false_iff in Hx as [Hx1 Hx2].
    apply bind_inv in H as [([] & s1 & H1 & H2) | (e & H1 & _)].
    + rewrite (IH _ Hx2 H2). eapply exec_stmt_frame; eassumption.
    + eapply exec_stmt_frame; eassumption.
Qed.

(** *** A failure is the exception of the last external operation *)

Lemma safe_total bound {A : Type} (m : M World A) :
  (forall s, exists a s', m s = (Done a, s') /\ env s' = env s) -> safe ext bound A m.
Proof.
  intros H. split.
  - intros s r s' E. destruct (H s) as (a & s1 & Ha & He). congruence.
  - intros s ex s' _ E. destruct (H s) as (a & s1 & Ha & He). congruence.
Qed.

Lemma safe_bind bound {A B : Type} (m : M World A) (k : A -> M World B) :
  safe ext bound A m -> (forall a, safe ext bound B (k a)) -> safe ext bound B (bind m k).
Proof.
  intros [Hm1 Hm2] Hk. split.
  - apply preserves_env_bind; [assumption|]. intros a. apply Hk.
  - intros s ex s' Hc H.
    apply bind_inv in H as [(a & s1 & H1 & H2) | (e & H1 & E)].
    + apply (proj2 (Hk a) s1); [|assumption]. rewrite (Hm1 _ _ _ H1). assumption.
    + inversion E; subst. eauto.
Qed.

Lemma safe_ext_op bound o : safe ext bound value (ext_op ext o).
Proof.
  split.
  - intros s r s' H. apply ext_op_inv in H. tauto.
  - intros s ex s' _ H. apply ext_op_inv in H as (_ & [x|v] & E & L & R);
      [|discriminate].
    inversion R; subst. exists o, x, (world s), (log s). auto.
Qed.

Lemma safe_lookup bound x : mem x bound = true -> safe ext bound value (lookup_name x).
Proof.
  intros Hx. split; [apply preserves_env_lookup|].
  intros s ex s' Hc. unfold lookup_name.
  destruct (Hc x Hx) as [v ->]. discriminate.
Qed.

Lemma eval_safe bound e :
  subset (expr_reads e) bound = true -> has_coroutine e = false ->
  safe ext bound value (eval ext e).
Proof.
  intros Hr Hc.
  apply (Q_eval ext (safe ext bound) (fun x => mem x bound) false).
  - intros A a. apply safe_total. intros s. exists a, s. split; reflexivity.
  - intros A B. apply safe_bind.
  - apply safe_ext_op.
  - intros ev. apply safe_total. intros s. eexists tt, _. split; reflexivity.
  - apply safe_lookup.
  - discriminate.
  - split; [exact Hr|]. rewrite Hc. reflexivity.
Qed.

Lemma covers_insert bound names x v :
  covers bound names -> covers (x :: bound) (<[x:=v]> names).
Proof.
  intros Hc y Hy. simpl in Hy. destruct (decide (y = x)) as [E|Hne].
  - subst y. rewrite lookup_insert_eq. eauto.
  - rewrite lookup_insert_ne by congruence. apply Hc.
    rewrite (proj2 (String.eqb_neq y x) Hne) in Hy. exact Hy.
Qed.

Lemma covers_mono bound bound' names :
  (forall x, mem x bound' = true -> mem x bound = true) ->
  covers bound names -> covers bound' names.
Proof. intros H Hc x Hx. auto. Qed.

Lemma import_names_safe bound m names s r s' :
  covers bound (env s) -> import_names ext m names s = (r, s') ->
  match r with
  | Done _ => covers (names ++ bound) (env s')
  | Failed ex => external_failure ext ex s'
  end.
Proof.
  revert s bound. induction names as [|n names IH]; simpl; intros s bound Hc H.
  - inversion H; subst. assumption.
  - apply bind_inv in H as [([] & s1 & H1 & H2) | (e & H1 & ->)];
      unfold import_name in H1.
    + apply bind_inv in H1 as [(v & s0 & H0 & Hb) | (e & ? & ?)]; [|discriminate].
      inversion Hb; subst. apply ext_op_inv in H0 as [E _].
      rewrite <- E in Hc.
      specialize (IH (State (<[n:=v]> (env s0)) (world s0) (log s0)) (n :: bound)
                    (covers_insert _ _ n v Hc) H2).
      destruct r; [|assumption].
      eapply covers_mono; [|exact IH]. intros x. simpl.
      rewrite !mem_app. simpl. destruct (x =? n)%string, (mem x names); auto.
    + apply bind_inv in H1 as [(v & s0 & H0 & Hb) | (e' & H0 & E)]; [discriminate|].
      inversion E; subst. eapply (proj2 (safe_ext_op bound _)); eassumption.
Qed.

Lemma bind_name_safe bound {A : Type} (m : M World A) x (f : A -> value) s r s' :
  safe ext bound A m -> covers bound (env s) ->
  bind m (fun a => bind_name x (f a)) s = (r, s') ->
  match r with
  | Done _ => covers (x :: bound) (env s')
  | Failed ex => external_failure ext ex s'
  end.
Proof.
  intros [Hm1 Hm2] Hc H.
  apply bind_inv in H as [(a & s1 & H1 & H2) | (e & H1 & ->)].
  - inversion H2; subst; simpl. apply covers_insert.
    rewrite (Hm1 _ _ _ H1). assumption.
  - eauto.
Qed.

Lemma discard_safe bound {A : Type} (m : M World A) s r s' :
  safe ext bound A m -> covers bound (env s) ->
  bind m (fun _ => ret tt) s = (r, s') ->
  match r with
  | Done _ => covers bound (env s')
  | Failed ex => external_failure ext ex s'
  end.
Proof.
  intros [Hm1 Hm2] Hc H.
  apply bind_inv in H as [(a & s1 & H1 & H2) | (e & H1 & ->)].
  - inversion H2; subst. rewrite (Hm1 _ _ _ H1). assumption.
  - eauto.
Qed.

Lemma exec_stmt_safe bound st s r s' :
  subset (stmt_reads st) bound = true -> simple_stmt st = true ->
  covers bound (env s) -> exec_stmt ext st s = (r, s') ->
  match r with
  | Done _ => covers (stmt_binds st ++ bound) (env s')
  | Failed ex => external_failure ext ex s'
  end.
Proof.
  destruct st as [m names|m|y e|e|line|k]; intros Hr Hs Hc H;
    unfold stmt_binds; simpl in H.
  - eapply import_names_safe; eassumption.
  - eapply (bind_name_safe bound _ _ (fun v => v)); [apply safe_ext_op| |]; eassumption.
  - eapply (bind_name_safe bound _ _ (fun v => v)); [|eassumption..].
    apply eval_safe; [exact Hr|]. simpl in Hs. apply negb_true_iff. exact Hs.
  - eapply discard_safe; [|eassumption..].
    apply eval_safe; [exact Hr|]. simpl in Hs. apply negb_true_iff. exact Hs.
  - eapply discard_safe; [apply safe_ext_op|eassumption..].
  - discriminate.
Qed.

Lemma exec_outcome p bound s r s' :
  well_scoped bound p = true -> straight_line p = true ->
  covers bound (env s) -> exec ext p s = (r, s') ->
  match r with
  | Done _ => covers (binds p ++ bound) (env s')
  | Failed ex => external_failure ext ex s'
  end.
Proof.
  revert bound s. induction p as [|st p IH]; simpl; intros bound s Hw Hs Hc H.
  - inversion H; subst. assumption.
  - apply andb_true_iff in Hw as [Hw1 Hw2]. apply andb_true_iff in Hs as [Hs1 Hs2].
    apply bind_inv in H as [([] & s1 & H1 & H2) | (e & H1 & ->)].
    + specialize (IH _ s1 Hw2 Hs2
                    (exec_stmt_safe bound st s (Done tt) s1 Hw1 Hs1 Hc H1) H2).
      destruct r; [|assumption].
      eapply covers_mono; [|exact IH]. intros x. unfold binds. simpl.
      rewrite !mem_app.
      destruct (mem x (stmt_binds st)), (mem x (flat_map stmt_binds p)); auto.
    + apply (exec_stmt_safe bound st s (Failed e) s'); assumption.
Qed.

Lemma covers_initial (w : World) : covers builtins (env (initial w)).
Proof.
  intros x Hx. apply mem_true in Hx. destruct Hx as [<-|[]].
  simpl. unfold initial_env. rewrite lookup_singleton_eq. eauto.
Qed.

(** *** A binding that no later statement reads *)

Lemma printed_ext o a l : printed (Ext o a :: l) = printed l.
Proof. unfold printed. simpl. rewrite omap_app. simpl. apply app_nil_r. Qed.

Lemma printed_printed t l : printed (Printed t :: l) = printed l ++ [t].
Proof. unfold printed. simpl. rewrite omap_app. reflexivity. Qed.

Lemma respects_bind x {A B : Type} (m : M World A) (k : A -> M World B) :
  respects x A m -> (forall a, respects x B (k a)) -> respects x B (bind m k).
Proof.
  intros Hm Hk s1 s2 Hs. specialize (Hm s1 s2 Hs). unfold bind.
  destruct (m s1) as [[a1|e1] t1], (m s2) as [[a2|e2] t2]; simpl in Hm;
    destruct Hm as [E Ht]; inversion E; subst.
  - apply Hk. assumption.
  - split; [reflexivity|assumption].
Qed.

Lemma respects_ext_op x o : respects x value (ext_op ext o).
Proof.
  intros s1 s2 (Hw & Hp & He). unfold ext_op. rewrite Hw.
  destruct (ext (world s2) o) as [[e|v] w']; simpl;
    (split; [reflexivity|]); repeat split; simpl;
    rewrite ?printed_ext; assumption.
Qed.

Lemma respects_exec x p :
  mem x (reads p) = false -> respects x unit (exec ext p).
Proof.
  intros Hx.
  apply (Q_exec ext (respects x) (fun y => negb (String.eqb x y)) true).
  - intros A a s1 s2 Hs. split; [reflexivity|assumption].
  - intros A B. apply respects_bind.
  - apply respects_ext_op.
  - intros ev s1 s2 (Hw & Hp & He). split; [reflexivity|].
    repeat split; simpl; try assumption.
    destruct ev; rewrite ?printed_ext, ?printed_printed; congruence.
  - intros y Hy s1 s2 (Hw & Hp & He). unfold lookup_name.
    apply negb_true_iff, String.eqb_neq in Hy.
    rewrite (He y) by congruence.
    destruct (env s2 !! y); (split; [reflexivity|]); repeat split; assumption.
  - intros _ A s1 s2 Hs. split; [reflexivity|assumption].
  - intros y v s1 s2 (Hw & Hp & He). split; [reflexivity|].
    repeat split; simpl; try assumption.
    intros z Hz. rewrite !lookup_insert. case_decide; auto.
  - unfold mem in Hx. apply existsb_false_Forall in Hx.
    apply forallb_forall. intros y Hy. apply negb_true_iff.
    apply (proj1 (Forall_forall _ _) Hx). apply list_elem_of_In. assumption.
  - reflexivity.
Qed.

End Consequences.

(** ** The call sequence of the examples *)

(** C6, counterexample: the electronic-structure tutorial is one of the
    examples; it prints between its converter constructions and constructs
    and invokes no eigensolver, so it does not follow the call sequence. *)
Lemma electronic_structure_breaks_call_sequence :
  In (notebook_program electronic_structure) examples
  /\ phases (notebook_program electronic_structure)
     = [Driver; Problem; Report; Converter; Report; Converter; Report]
  /\ follows_call_sequence (notebook_program electronic_structure) = false
  /\ ~ call_sequence_claim.
Proof.
  repeat split.
  - right. right. left. reflexivity.
  - intros H. unfold call_sequence_claim, examples in H.
    apply Forall_cons in H as [_ H]. apply Forall_cons in H as [_ H].
    apply Forall_cons in H as [[H _] _]. vm_compute in H. discriminate.
Qed.

(** C6, amended: the README example follows the call sequence (driver,
    problem, qubit converter, eigensolver construction, invocation, then
    only report statements), and so does the ground-state tutorial up to
    its first printed result; the ground-state tutorial as a whole does
    not.  In all three examples every construction or
    invocation comes after a step of each earlier phase of the sequence,
    every problem is constructed from a driver, and every name a statement
    reads is bound by an earlier statement or is a builtin, so no step uses
    a value produced by a later step. *)
Theorem call_sequence_of_examples :
  follows_call_sequence readme_example = true
  /\ follows_call_sequence (notebook_program (firstn 11 ground_state_solvers)) = true
  /\ follows_call_sequence (notebook_program ground_state_solvers) = false
  /\ Forall (fun p => respects_precedence p = true
                      /\ problems_from_drivers [] p = true
                      /\ well_scoped builtins p = true)
            examples.
Proof.
  do 3 (split; [reflexivity|]).
  repeat constructor.
Qed.

(** ** The converter built with DirectMapper *)

(** C9: in the ground-state tutorial the statement
    [qubit_covnerter = QubitConverter(DirectMapper())] binds a name that no
    later statement reads; both [GroundStateEigensolver] calls of the
    filter-function cell pass [qubit_converter], whose latest assignment is
    [QubitConverter(JordanWignerMapper())] and which nothing rebinds from
    there on.  Hence, if building the DirectMapper converter returns an
    object without changing the framework's world or printing, the tutorial
    without that statement ends the same way, prints the same texts and
    leaves the same world. *)
Theorem direct_mapper_converter_is_unused
  {World : Type} (ext : World -> op -> (value + value) * World) (w : World) :
  (forall s, run ext gs_prefix w = (Done tt, s) ->
     exists v s', eval ext direct_converter s = (Done v, s')
                  /\ world s' = world s
                  /\ printed (log s') = printed (log s)) ->
  notebook_program ground_state_solvers
  = gs_prefix ++ filter_direct_mapper :: gs_suffix
  /\ stmt_binds filter_direct_mapper = ["qubit_covnerter"]
  /\ mem "qubit_covnerter" (reads gs_suffix) = false
  /\ solver_converters filter_tail = [EName "qubit_converter"; EName "qubit_converter"]
  /\ last_assigned "qubit_converter" gs_prefix None
     = Some (call "QubitConverter" [call "JordanWignerMapper" [] []] [])
  /\ mem "qubit_converter" (binds (filter_direct_mapper :: gs_suffix)) = false
  /\ (let full := run ext (notebook_program ground_state_solvers) w in
      let cut := run ext (gs_prefix ++ gs_suffix) w in
      fst full = fst cut
      /\ printed (log (snd full)) = printed (log (snd cut))
      /\ world (snd full) = world (snd cut)).
Proof.
  intros Hpure. do 6 (split; [reflexivity|]).
  change (notebook_program ground_state_solvers)
    with (gs_prefix ++ [filter_direct_mapper] ++ gs_suffix).
  unfold run. rewrite !exec_app.
  destruct (exec ext gs_prefix (initial w)) as [[[]|e] s] eqn:Hpre;
    [|repeat split; reflexivity].
  destruct (Hpure s Hpre) as (v & s1 & Hv & Hw & Hp).
  assert (Hdm : exec ext [filter_direct_mapper] s
                = (Done tt, State (<["qubit_covnerter":=v]> (env s1)) (world s1) (log s1))).
  { change (exec ext [filter_direct_mapper] s)
      with (bind (bind (eval ext direct_converter)
                       (fun v => bind_name "qubit_covnerter" v))
                 (fun _ => ret tt) s).
    unfold bind. rewrite Hv. reflexivity. }
  rewrite exec_app, Hdm.
  pose proof (eval_preserves_env ext _ _ _ _ Hv) as He.
  destruct (respects_exec ext "qubit_covnerter" gs_suffix eq_refl
              (State (<["qubit_covnerter":=v]> (env s1)) (world s1) (log s1)) s)
    as (Hr & Hw' & Hp' & _).
  { repeat split; simpl; try assumption.
    intros y Hy. rewrite lookup_insert_ne by congruence. rewrite He. reflexivity. }
  repeat split; assumption.
Qed.

Lemma direct_mapper_converter_is_unused_witness :
  (forall s, run counting_framework gs_prefix 0%N = (Done tt, s) ->
     exists v s', eval counting_framework direct_converter s = (Done v, s')
                  /\ world s' = world s
                  /\ printed (log s') = printed (log s))
  /\ (let full := run counting_framework (notebook_program ground_state_solvers) 0%N in
      let cut := run counting_framework (gs_prefix ++ gs_suffix) 0%N in
      fst full = fst cut
      /\ printed (log (snd full)) = printed (log (snd cut))
      /\ world (snd full) = world (snd cut)).
Proof.
  assert (H : forall s, run counting_framework gs_prefix 0%N = (Done tt, s) ->
     exists v s', eval counting_framework direct_converter s = (Done v, s')
                  /\ world s' = world s
                  /\ printed (log s') = printed (log s)).
  { intros s Hs. vm_compute in Hs. inversion Hs; subst s; clear Hs.
    eexists _, _. split; [vm_compute; reflexivity|].
    split; vm_compute; reflexivity. }
  split; [exact H|].
  apply (direct_mapper_converter_is_unused counting_framework 0%N H).
Defined.

(** ** Statements the rest of a program does not depend on *)

Section Independence.

Context {World : Type}.

Variable ext : World -> op -> (value + value) * World.

Lemma respects_on_bind xs {A B : Type} (m : M World A) (k : A -> M World B) :
  respects_on xs A m -> (forall a, respects_on xs B (k a)) ->
  respects_on xs B (bind m k).
Proof.
  intros Hm Hk s1 s2 Hs. specialize (Hm s1 s2 Hs). unfold bind.
  destruct (m s1) as [[a1|e1] t1], (m s2) as [[a2|e2] t2]; simpl in Hm;
    destruct Hm as [E Ht]; inversion E; subst.
  - apply Hk. assumption.
  - split; [reflexivity|assumption].
Qed.

Lemma respects_on_exec xs p :
  forallb (fun y => negb (mem y xs)) (reads p) = true ->
  respects_on xs unit (exec ext p).
Proof.
  intros Hx.
  apply (Q_exec ext (respects_on xs) (fun y => negb (mem y xs)) true).
  - intros A a s1 s2 Hs. split; [reflexivity|assumption].
  - intros A B. apply respects_on_bind.
  - intros o s1 s2 (Hw & Hp & He). unfold ext_op. rewrite Hw.
    destruct (ext (world s2) o) as [[e|v] w']; simpl;
      (split; [reflexivity|]); repeat split; simpl;
      rewrite ?printed_ext; assumption.
  - intros ev s1 s2 (Hw & Hp & He). split; [reflexivity|].
    repeat split; simpl; try assumption.
    destruct ev; rewrite ?printed_ext, ?printed_printed; congruence.
  - intros y Hy s1 s2 (Hw & Hp & He). unfold lookup_name.
    apply negb_true_iff in Hy. rewrite (He y Hy).
    destruct (env s2 !! y); (split; [reflexivity|]); repeat split; assumption.
  - intros _ A s1 s2 Hs. split; [reflexivity|assumption].
  - intros y v s1 s2 (Hw & Hp & He). split; [reflexivity|].
    repeat split; simpl; try assumption.
    intros z Hz. rewrite !lookup_insert. case_decide; auto.
  - assumption.
  - reflexivity.
Qed.

Lemma same_result_trans (r1 r2 r3 : outcome unit * state World) :
  same_result r1 r2 -> same_result r2 r3 -> same_result r1 r3.
Proof.
  intros (A1 & B1 & C1) (A2 & B2 & C2). repeat split; congruence.
Qed.

(** Statements that complete without changing the world or printing, and
    bind only names that the statements after them do not read, can be
    left out. *)
Lemma dead_block pre dead post w :
  forallb (fun y => negb (mem y (binds dead))) (reads post) = true ->
  (forall s, run ext pre w = (Done tt, s) -> observably_pure ext dead s) ->
  same_result (run ext (pre ++ dead ++ post) w) (run ext (pre ++ post) w).
Proof.
  intros Hreads Hpure. unfold run in *. rewrite !exec_app.
  destruct (exec ext pre (initial w)) as [[[]|e] s] eqn:Hpre;
    [|repeat split; reflexivity].
  destruct (Hpure s eq_refl) as (s1 & Hdead & Hw & Hp).
  rewrite exec_app, Hdead.
  destruct (respects_on_exec (binds dead) post Hreads s1 s) as (Hr & Hw' & Hp' & _).
  { repeat split; try assumption.
    intros y Hy. eapply exec_frame; eassumption. }
  repeat split; assumption.
Qed.

End Independence.

(** X1.  README.md, "setup the initial state for the ansatz" and "add the
    initial state": [init_state] is read by the compose call only, whose
    value is dropped.  So, in every framework in which constructing the
    Hartree-Fock state and calling compose complete without changing the
    world or printing, the example without these two statements ends the
    same way, prints the same texts and leaves the same world: the initial
    state does not reach the eigensolver. *)
Theorem initial_state_is_unused
  {World : Type} (ext : World -> op -> (value + value) * World) (w : World) :
  (forall s, run ext readme_before_init w = (Done tt, s) ->
             observably_pure ext [readme_init_state] s) ->
  (forall s, run ext (readme_before_init ++ readme_init_state :: readme_after_init) w
             = (Done tt, s) ->
             observably_pure ext [readme_compose] s) ->
  readme_example
  = readme_before_init ++ readme_init_state :: readme_after_init
      ++ readme_compose :: readme_tail
  /\ mem "init_state" (reads (readme_after_init ++ readme_tail)) = false
  /\ same_result (run ext readme_example w) (run ext readme_without_initial_state w).
Proof.
  intros Hinit Hcompose. do 2 (split; [reflexivity|]).
  apply (same_result_trans _
           (run ext (readme_before_init ++ [readme_init_state]
                       ++ readme_after_init ++ readme_tail) w)).
  - exact (dead_block ext (readme_before_init ++ readme_init_state :: readme_after_init)
             [readme_compose] readme_tail w eq_refl Hcompose).
  - exact (dead_block ext readme_before_init [readme_init_state]
             (readme_after_init ++ readme_tail) w eq_refl Hinit).
Qed.

Lemma initial_state_is_unused_witness :
  (forall s, run method_framework readme_before_init 0%N = (Done tt, s) ->
             observably_pure method_framework [readme_init_state] s)
  /\ (forall s, run method_framework
                  (readme_before_init ++ readme_init_state :: readme_after_init) 0%N
                = (Done tt, s) ->
                observably_pure method_framework [readme_compose] s)
  /\ same_result (run method_framework readme_example 0%N)
                 (run method_framework readme_without_initial_state 0%N).
Proof.
  assert (H1 : forall s, run method_framework readme_before_init 0%N = (Done tt, s) ->
                         observably_pure method_framework [readme_init_state] s).
  { intros s Hs. vm_compute in Hs. inversion Hs; subst s; clear Hs.
    eexists. split; [vm_compute; reflexivity|]. split; vm_compute; reflexivity. }
  assert (H2 : forall s, run method_framework
                  (readme_before_init ++ readme_init_state :: readme_after_init) 0%N
                = (Done tt, s) ->
                observably_pure method_framework [readme_compose] s).
  { intros s Hs. vm_compute in Hs. inversion Hs; subst s; clear Hs.
    eexists. split; [vm_compute; reflexivity|]. split; vm_compute; reflexivity. }
  split; [exact H1|]. split; [exact H2|].
  apply (initial_state_is_unused method_framework 0%N H1 H2).
Defined.

(** X2.  Ground-state tutorial, the cell that builds [another_solver] from a
    [TwoLocal] circuit: none of the names the cell binds is read by a later
    cell, so no solve uses the solver it builds.  In every framework in
    which the cell completes without changing the world or printing, the
    tutorial without the cell ends the same way, prints the same texts and
    leaves the same world. *)
Theorem two_local_solver_is_unused
  {World : Type} (ext : World -> op -> (value + value) * World) (w : World) :
  (forall s, run ext gs_before_two_local w = (Done tt, s) ->
             observably_pure ext (cell_source gs_cell_two_local) s) ->
  notebook_program ground_state_solvers
  = gs_before_two_local ++ cell_source gs_cell_two_local ++ gs_after_two_local
  /\ binds (cell_source gs_cell_two_local)
     = ["VQE"; "TwoLocal"; "tl_circuit"; "another_solver"]
  /\ forallb (fun y => negb (mem y (binds (cell_source gs_cell_two_local))))
             (reads gs_after_two_local) = true
  /\ same_result (run ext (notebook_program ground_state_solvers) w)
                 (run ext (gs_before_two_local ++ gs_after_two_local) w).
Proof.
  intros Hpure. do 3 (split; [reflexivity|]).
  exact (dead_block ext gs_before_two_local (cell_source gs_cell_two_local)
           gs_after_two_local w eq_refl Hpure).
Qed.

Lemma two_local_solver_is_unused_witness :
  (forall s, run method_framework gs_before_two_local 0%N = (Done tt, s) ->
             observably_pure method_framework (cell_source gs_cell_two_local) s)
  /\ same_result (run method_framework (notebook_program ground_state_solvers) 0%N)
                 (run method_framework (gs_before_two_local ++ gs_after_two_local) 0%N).
Proof.
  assert (H : forall s, run method_framework gs_before_two_local 0%N = (Done tt, s) ->
             observably_pure method_framework (cell_source gs_cell_two_local) s).
  { intros s Hs. vm_compute in Hs. inversion Hs; subst s; clear Hs.
    eexists. split; [vm_compute; reflexivity|]. split; vm_compute; reflexivity. }
  split; [exact H|].
  apply (two_local_solver_is_unused method_framework 0%N H).
Defined.

(** ** Names that keep their value *)

Section Stability.

Context {World : Type}.

Variable ext : World -> op -> (value + value) * World.

(** A name that the remaining statements do not bind has, at every later
    point of the run, the value it has now. *)
Lemma binding_survives rest mid post x s0 r s :
  rest = mid ++ post -> mem x (binds rest) = false ->
  exec ext mid s0 = (r, s) -> env s !! x = env s0 !! x.
Proof.
  intros -> Hx H. eapply exec_frame; [|eassumption].
  unfold binds in *. rewrite flat_map_app, mem_app in Hx.
  apply orb_false_iff in Hx. tauto.
Qed.

Lemma eval_name x v (s : state World) :
  env s !! x = Some v -> eval ext (EName x) s = (Done v, s).
Proof. intros H. simpl. unfold lookup_name. rewrite H. reflexivity. Qed.

End Stability.

(** X3.  Ground-state tutorial: after the first code cell nothing rebinds
    [qubit_converter] or [es_problem].  So in every framework, at every
    later point of a run, the two names evaluate to the objects the first
    cell bound: all four [GroundStateEigensolver] calls, those for the
    vibrational problem included, receive the one converter object, and
    both solves of the electronic problem receive the one problem object,
    although the last cell rebinds [driver]. *)
Theorem converter_and_problem_are_shared
  {World : Type} (ext : World -> op -> (value + value) * World) (w : World)
  (s0 : state World) (mid post : list stmt) (r : outcome unit) (s : state World) :
  run ext (cell_source gs_cell_problem) w = (Done tt, s0) ->
  gs_after_problem = mid ++ post ->
  exec ext mid s0 = (r, s) ->
  notebook_program ground_state_solvers = cell_source gs_cell_problem ++ gs_after_problem
  /\ solver_converters gs_after_problem
     = [EName "qubit_converter"; EName "qubit_converter";
        EName "qubit_converter"; EName "qubit_converter"]
  /\ method_arguments "solve" gs_after_problem
     = [EName "es_problem"; EName "es_problem"; EName "vib_problem"; EName "vib_problem"]
  /\ mem "driver" (binds gs_after_problem) = true
  /\ exists converter problem,
       env s0 !! "qubit_converter" = Some converter
       /\ env s0 !! "es_problem" = Some problem
       /\ eval ext (EName "qubit_converter") s = (Done converter, s)
       /\ eval ext (EName "es_problem") s = (Done problem, s).
Proof.
  intros H0 Hsplit Hmid. do 4 (split; [reflexivity|]).
  pose proof (exec_outcome ext (cell_source gs_cell_problem) builtins (initial w) _ _
                eq_refl eq_refl (covers_initial w) H0) as C0.
  destruct (C0 "qubit_converter" eq_refl) as [converter Hc].
  destruct (C0 "es_problem" eq_refl) as [problem Hp].
  exists converter, problem. do 2 (split; [assumption|]). split.
  - apply eval_name.
    rewrite (binding_survives ext _ _ _ "qubit_converter" _ _ _ Hsplit eq_refl Hmid).
    assumption.
  - apply eval_name.
    rewrite (binding_survives ext _ _ _ "es_problem" _ _ _ Hsplit eq_refl Hmid).
    assumption.
Qed.

Lemma converter_and_problem_are_shared_witness :
  let s0 := snd (run counting_framework (cell_source gs_cell_problem) 0%N) in
  let mid := firstn 35 gs_after_problem in
  let post := skipn 35 gs_after_problem in
  let s := snd (exec counting_framework mid s0) in
  run counting_framework (cell_source gs_cell_problem) 0%N = (Done tt, s0)
  /\ gs_after_problem = mid ++ post
  /\ exec counting_framework mid s0 = (Done tt, s)
  /\ exists converter problem,
       env s0 !! "qubit_converter" = Some converter
       /\ env s0 !! "es_problem" = Some problem
       /\ eval counting_framework (EName "qubit_converter") s = (Done converter, s)
       /\ eval counting_framework (EName "es_problem") s = (Done problem, s).
Proof.
  intros s0 mid post s.
  assert (H0 : run counting_framework (cell_source gs_cell_problem) 0%N = (Done tt, s0))
    by (vm_compute; reflexivity).
  assert (H1 : gs_after_problem = mid ++ post) by reflexivity.
  assert (H2 : exec counting_framework mid s0 = (Done tt, s))
    by (vm_compute; reflexivity).
  do 3 (split; [assumption|]).
  apply (converter_and_problem_are_shared counting_framework 0%N s0 mid post
           (Done tt) s H0 H1 H2).
Defined.

(** X4.  Electronic-structure tutorial: after the cell that generates the
    second-quantized operators nothing rebinds [second_q_op] or
    [es_problem], and [second_q_op] is the only expression the tutorial
    subscripts.  So in every framework, at every later point of a run, the
    operator printed, the operators converted by the two converters and the
    particle numbers all come from the list and the problem object that
    this cell bound, although [qubit_converter] and [qubit_op] are rebound. *)
Theorem operators_are_shared
  {World : Type} (ext : World -> op -> (value + value) * World) (w : World)
  (s0 : state World) (mid post : list stmt) (r : outcome unit) (s : state World) :
  run ext es_operators w = (Done tt, s0) ->
  es_after_operators = mid ++ post ->
  exec ext mid s0 = (r, s) ->
  notebook_program electronic_structure = es_operators ++ es_after_operators
  /\ flat_map (fun st => match stmt_expr st with
                         | Some e => subscripted e
                         | None => []
                         end) (notebook_program electronic_structure)
     = [EName "second_q_op"; EName "second_q_op"; EName "second_q_op"]
  /\ binds es_after_operators
     = ["qubit_converter"; "qubit_op"; "qubit_converter"; "qubit_op"; "qiskit"]
  /\ exists operators problem,
       env s0 !! "second_q_op" = Some operators
       /\ env s0 !! "es_problem" = Some problem
       /\ eval ext (EName "second_q_op") s = (Done operators, s)
       /\ eval ext (EName "es_problem") s = (Done problem, s).
Proof.
  intros H0 Hsplit Hmid. do 3 (split; [reflexivity|]).
  pose proof (exec_outcome ext es_operators builtins (initial w) _ _
                eq_refl eq_refl (covers_initial w) H0) as C0.
  destruct (C0 "second_q_op" eq_refl) as [operators Ho].
  destruct (C0 "es_problem" eq_refl) as [problem Hp].
  exists operators, problem. do 2 (split; [assumption|]). split.
  - apply eval_name.
    rewrite (binding_survives ext _ _ _ "second_q_op" _ _ _ Hsplit eq_refl Hmid).
    assumption.
  - apply eval_name.
    rewrite (binding_survives ext _ _ _ "es_problem" _ _ _ Hsplit eq_refl Hmid).
    assumption.
Qed.

Lemma operators_are_shared_witness :
  let s0 := snd (run counting_framework es_operators 0%N) in
  let mid := firstn 4 es_after_operators in
  let post := skipn 4 es_after_operators in
  let s := snd (exec counting_framework mid s0) in
  run counting_framework es_operators 0%N = (Done tt, s0)
  /\ es_after_operators = mid ++ post
  /\ exec counting_framework mid s0 = (Done tt, s)
  /\ exists operators problem,
       env s0 !! "second_q_op" = Some operators
       /\ env s0 !! "es_problem" = Some problem
       /\ eval counting_framework (EName "second_q_op") s = (Done operators, s)
       /\ eval counting_framework (EName "es_problem") s = (Done problem, s).
Proof.
  intros s0 mid post s.
  assert (H0 : run counting_framework es_operators 0%N = (Done tt, s0))
    by (vm_compute; reflexivity).
  assert (H1 : es_after_operators = mid ++ post) by reflexivity.
  assert (H2 : exec counting_framework mid s0 = (Done tt, s))
    by (vm_compute; reflexivity).
  do 3 (split; [assumption|]).
  apply (operators_are_shared counting_framework 0%N s0 mid post (Done tt) s H0 H1 H2).
Defined.

(** ** A namespace that only grows *)

Section Growth.

Context {World : Type}.

Variable ext : World -> op -> (value + value) * World.

Lemma fresh_not_bound bound l x :
  forallb (fun y => negb (mem y bound)) l = true -> mem x bound = true ->
  mem x l = false.
Proof.
  intros Hl Hx. destruct (mem x l) eqn:E; [|reflexivity].
  apply mem_true in E. rewrite forallb_forall in Hl. specialize (Hl x E).
  rewrite Hx in Hl. discriminate.
Qed.

Lemma exec_stmt_grows bound st s r s1 :
  forallb (fun y => negb (mem y bound)) (stmt_binds st) = true ->
  within bound (env s) -> exec_stmt ext st s = (r, s1) ->
  env s ⊆ env s1 /\ within (stmt_binds st ++ bound) (env s1).
Proof.
  intros Hfresh Hin H. split.
  - apply map_subseteq_spec. intros x v Hx.
    rewrite (exec_stmt_frame ext st x s r s1); [assumption| |assumption].
    apply (fresh_not_bound bound); [assumption|]. apply Hin. eauto.
  - intros y Hy. rewrite mem_app.
    destruct (mem y (stmt_binds st)) eqn:E; [reflexivity|]. simpl.
    apply Hin. rewrite <- (exec_stmt_frame ext st y s r s1); assumption.
Qed.

Lemma exec_grows p bound s r s' :
  single_assignment bound p = true -> within bound (env s) ->
  exec ext p s = (r, s') -> env s ⊆ env s'.
Proof.
  revert bound s. induction p as [|st p IH]; simpl; intros bound s Hsa Hin H.
  - inversion H; subst. reflexivity.
  - apply andb_true_iff in Hsa as [Hfresh Hsa].
    apply bind_inv in H as [([] & s1 & H1 & H2) | (e & H1 & _)].
    + destruct (exec_stmt_grows bound st s _ s1 Hfresh Hin H1) as [Hsub Hin1].
      etransitivity; [exact Hsub|]. eapply IH; eassumption.
    + eapply exec_stmt_grows; eassumption.
Qed.

Lemma exec_grows_from pre post bound s s1 r s2 :
  single_assignment bound (pre ++ post) = true -> within bound (env s) ->
  exec ext pre s = (Done tt, s1) -> exec ext post s1 = (r, s2) ->
  env s1 ⊆ env s2.
Proof.
  revert bound s. induction pre as [|st pre IH]; simpl; intros bound s Hsa Hin Hpre Hpost.
  - inversion Hpre; subst. eapply exec_grows; eassumption.
  - apply andb_true_iff in Hsa as [Hfresh Hsa].
    apply bind_inv in Hpre as [([] & sa & H1 & H2) | (e & _ & ?)]; [|discriminate].
    destruct (exec_stmt_grows bound st s _ sa Hfresh Hin H1) as [_ Hin1].
    eapply IH; eassumption.
Qed.

Lemma within_initial (w : World) : within builtins (env (initial w)).
Proof.
  intros x [v Hx]. simpl in Hx. unfold initial_env in Hx.
  apply lookup_singleton_Some in Hx as [<- _]. reflexivity.
Qed.

End Growth.

(** X5.  README.md, the whole example: no statement binds a name that an
    earlier statement has bound, or [print].  So in every framework the
    namespace only grows: from the point where a name is bound to the end
    of the run, failed or not, the name has the value it was first
    given. *)
Theorem readme_names_keep_their_values
  {World : Type} (ext : World -> op -> (value + value) * World) (w : World)
  (pre post : list stmt) (s1 : state World) (r : outcome unit) (s2 : state World) :
  readme_example = pre ++ post ->
  run ext pre w = (Done tt, s1) ->
  exec ext post s1 = (r, s2) ->
  single_assignment builtins readme_example = true /\ env s1 ⊆ env s2.
Proof.
  intros Hsplit Hpre Hpost. split; [reflexivity|].
  apply (exec_grows_from ext pre post builtins (initial w) s1 r s2);
    [rewrite <- Hsplit; reflexivity|apply within_initial|assumption..].
Qed.

Lemma readme_names_keep_their_values_witness :
  let pre := readme_setup in
  let post := [readme_ansatz; readme_compose] ++ readme_backend ++ readme_run in
  let s1 := snd (run counting_framework pre 0%N) in
  let s2 := snd (exec counting_framework post s1) in
  readme_example = pre ++ post
  /\ run counting_framework pre 0%N = (Done tt, s1)
  /\ exec counting_framework post s1 = (Done tt, s2)
  /\ env s1 ⊆ env s2.
Proof.
  intros pre post s1 s2.
  assert (H0 : readme_example = pre ++ post) by reflexivity.
  assert (H1 : run counting_framework pre 0%N = (Done tt, s1))
    by (vm_compute; reflexivity).
  assert (H2 : exec counting_framework post s1 = (Done tt, s2))
    by (vm_compute; reflexivity).
  do 3 (split; [assumption|]).
  apply (readme_names_keep_their_values counting_framework 0%N pre post s1 (Done tt) s2
           H0 H1 H2).
Defined.

(** ** What the examples print *)

Lemma printed_expr_Some st e :
  printed_expr st = Some e -> st = SExpr (ECall (EName "print") [e] []).
Proof.
  destruct st as [| | |e0| |]; try discriminate.
  destruct e0 as [| | | | | | | | | |f args kwargs| |]; try discriminate.
  destruct f as [x| | | | | | | | | | | |]; try discriminate.
  destruct args as [|a [|]]; try discriminate.
  destruct kwargs; try discriminate.
  simpl. destruct (String.eqb_spec x "print"); [|discriminate].
  intros H. inversion H; subst. reflexivity.
Qed.

Lemma mem_flat_map_false {A : Type} x (f : A -> list string) (l : list A) :
  mem x (flat_map f l) = false -> Forall (fun a => mem x (f a) = false) l.
Proof.
  induction l as [|a l IH]; simpl; intros H; constructor;
    rewrite mem_app in H; apply orb_false_iff in H; [tauto|apply IH; tauto].
Qed.

Lemma print_is_builtin_insert names x v :
  print_is_builtin names -> x <> "print" -> not_print v ->
  print_is_builtin (<[x:=v]> names).
Proof.
  intros [H1 H2] Hx Hv. split.
  - rewrite lookup_insert_ne by assumption. exact H1.
  - intros y Hy. destruct (decide (x = y)) as [<-|Hne].
    + rewrite lookup_insert_eq. intros E. inversion E. contradiction.
    + rewrite lookup_insert_ne by assumption. apply H2. assumption.
Qed.

Section Printing.

Context {World : Type}.

Variable ext : World -> op -> (value + value) * World.

Hypothesis ext_no_leak : no_print_leak ext.

Lemma apply_not_print f args kwargs :
  not_print f -> apply ext f args kwargs = ext_op ext (OCall f args kwargs).
Proof.
  intros Hf. unfold apply.
  repeat (match goal with
          | |- context [match ?x with _ => _ end] => destruct x
          end; try reflexivity).
  exfalso. apply Hf. reflexivity.
Qed.

Lemma quiet_ret {A : Type} (P : A -> Prop) a : P a -> quiet P (@ret World A a).
Proof.
  intros Ha s r s' _ H. inversion H; subst. repeat split.
  intros a' E. inversion E; subst. assumption.
Qed.

Lemma quiet_fail {A : Type} (P : A -> Prop) e : quiet P (@fail World A e).
Proof. intros s r s' _ H. inversion H; subst. repeat split. discriminate. Qed.

Lemma quiet_bind {A B : Type} (P : A -> Prop) (Q : B -> Prop)
  (m : M World A) (k : A -> M World B) :
  quiet P m -> (forall a, P a -> quiet Q (k a)) -> quiet Q (bind m k).
Proof.
  intros Hm Hk s r s' Hinv H.
  apply bind_inv in H as [(a & s1 & H1 & H2) | (e & H1 & ->)].
  - destruct (Hm _ _ _ Hinv H1) as (E1 & P1 & Ha).
    rewrite <- E1 in Hinv.
    destruct (Hk a (Ha a eq_refl) _ _ _ Hinv H2) as (E2 & P2 & Hb).
    repeat split; [congruence|congruence|assumption].
  - destruct (Hm _ _ _ Hinv H1) as (E1 & P1 & _).
    repeat split; [assumption..|discriminate].
Qed.

Lemma quiet_weaken {A : Type} (P Q : A -> Prop) (m : M World A) :
  (forall a, P a -> Q a) -> quiet P m -> quiet Q m.
Proof.
  intros HPQ Hm s r s' Hinv H. destruct (Hm _ _ _ Hinv H) as (E & Pr & Ha).
  repeat split; auto.
Qed.

Lemma quiet_ext_op o : quiet not_print (ext_op ext o).
Proof.
  intros s r s' _ H. apply ext_op_inv in H as (E & a & Hext & L & R).
  repeat split; [assumption|rewrite L; apply printed_ext|].
  intros v Hv. subst r. destruct a as [x|v']; inversion Hv; subst.
  eapply ext_no_leak. eassumption.
Qed.

Lemma quiet_lookup x : x <> "print" -> quiet not_print (@lookup_name World x).
Proof.
  intros Hx s r s' [_ Hinv]. unfold lookup_name.
  destruct (env s !! x) as [v|] eqn:E; intros H; inversion H; subst;
    repeat split; try discriminate.
  intros a Ha. inversion Ha; subst. intros ->. apply (Hinv x Hx). assumption.
Qed.

Lemma quiet_sequence {A : Type} (ms : list (M World A)) :
  Forall (quiet (fun _ => True)) ms -> quiet (fun _ => True) (sequence ms).
Proof.
  induction 1 as [|m ms Hm _ IH]; simpl.
  - apply quiet_ret. exact I.
  - eapply quiet_bind; [exact Hm|]. intros a _.
    eapply quiet_bind; [exact IH|]. intros r _. apply quiet_ret. exact I.
Qed.

Lemma quiet_render v : quiet (fun _ => True) (render ext v).
Proof.
  destruct v; simpl;
    try (apply (quiet_weaken not_print); [auto|apply quiet_ext_op]).
  apply quiet_ret. exact I.
Qed.

Lemma eval_quiet e :
  mem "print" (expr_reads e) = false -> quiet not_print (eval ext e).
Proof.
  induction e as [x|s|n|l|b|es IH|es IH|e IH a|e IHe i IHi|o l IHl r IHr
                  |f IHf args IHargs kwargs IHkw|e IH|e IH]; intros Hr; simpl;
    try (apply quiet_ret; discriminate); try (apply quiet_fail).
  - apply quiet_lookup. apply mem_cons_false in Hr as [Hne _]. congruence.
  - eapply quiet_bind; [|intros vs _; apply quiet_ret; discriminate].
    apply quiet_sequence, Forall_map_intro.
    simpl in Hr. apply mem_flat_map_false in Hr.
    apply (Forall_mp _ _ _ (Forall_impl _ _ _ (list_all_Forall _ _ IH)
             (fun e H Hm => quiet_weaken not_print _ _ (fun _ _ => I) (H Hm))) Hr).
  - eapply quiet_bind; [|intros vs _; apply quiet_ret; discriminate].
    apply quiet_sequence, Forall_map_intro.
    simpl in Hr. apply mem_flat_map_false in Hr.
    apply (Forall_mp _ _ _ (Forall_impl _ _ _ (list_all_Forall _ _ IH)
             (fun e H Hm => quiet_weaken not_print _ _ (fun _ _ => I) (H Hm))) Hr).
  - eapply quiet_bind; [apply IH; exact Hr|]. intros v _. apply quiet_ext_op.
  - simpl in Hr. rewrite mem_app in Hr. apply orb_false_iff in Hr as [H1 H2].
    eapply quiet_bind; [apply IHe; exact H1|]. intros v _.
    eapply quiet_bind; [apply IHi; exact H2|]. intros k _. apply quiet_ext_op.
  - simpl in Hr. rewrite mem_app in Hr. apply orb_false_iff in Hr as [H1 H2].
    eapply quiet_bind; [apply IHl; exact H1|]. intros v _.
    eapply quiet_bind; [apply IHr; exact H2|]. intros k _. apply quiet_ext_op.
  - simpl in Hr. rewrite !mem_app in Hr.
    apply orb_false_iff in Hr as [Hf Hr]. apply orb_false_iff in Hr as [Hargs Hkw].
    eapply quiet_bind; [apply IHf; exact Hf|]. intros vf Hvf.
    eapply (quiet_bind (fun _ => True)).
    { apply quiet_sequence, Forall_map_intro.
      apply mem_flat_map_false in Hargs.
      apply (Forall_mp _ _ _ (Forall_impl _ _ _ (list_all_Forall _ _ IHargs)
               (fun e H Hm => quiet_weaken not_print _ _ (fun _ _ => I) (H Hm))) Hargs). }
    intros vs _. eapply (quiet_bind (fun _ => True)).
    { apply quiet_sequence, Forall_map_intro.
      apply mem_flat_map_false in Hkw. clear Hf Hargs IHf IHargs.
      induction IHkw as [|[k v] Hkv kws _ IH]; constructor.
      - inversion Hkv; subst. apply Forall_cons in Hkw as [Hv _].
        eapply quiet_bind; [eauto|]. intros v' _. apply quiet_ret. exact I.
      - apply IH. apply Forall_cons in Hkw. tauto. }
    intros kws _. rewrite (apply_not_print _ _ _ Hvf). apply quiet_ext_op.
Qed.

End Printing.

Section PrintedTexts.

Context {World : Type}.

Variable ext : World -> op -> (value + value) * World.

Hypothesis ext_no_leak : no_print_leak ext.

Lemma assign_quiet (m : M World value) x s r s' :
  quiet not_print m -> x <> "print" -> print_is_builtin (env s) ->
  bind m (fun v => bind_name x v) s = (r, s') ->
  print_is_builtin (env s') /\ printed (log s') = printed (log s).
Proof.
  intros Hm Hx Hinv H.
  apply bind_inv in H as [(v & s1 & H1 & H2) | (e & H1 & ->)];
    destruct (Hm _ _ _ Hinv H1) as (E & P & Hv).
  - inversion H2; subst; simpl. split; [|assumption].
    rewrite E. apply print_is_builtin_insert; auto.
  - rewrite E. auto.
Qed.

Lemma discard_quiet {A : Type} (P : A -> Prop) (m : M World A) s r s' :
  quiet P m -> print_is_builtin (env s) ->
  bind m (fun _ => ret tt) s = (r, s') ->
  print_is_builtin (env s') /\ printed (log s') = printed (log s).
Proof.
  intros Hm Hinv H.
  apply bind_inv in H as [(v & s1 & H1 & H2) | (e & H1 & ->)];
    destruct (Hm _ _ _ Hinv H1) as (E & Pr & _).
  - inversion H2; subst. rewrite E. auto.
  - rewrite E. auto.
Qed.

Lemma import_names_quiet m names s r s' :
  mem "print" names = false -> print_is_builtin (env s) ->
  import_names ext m names s = (r, s') ->
  print_is_builtin (env s') /\ printed (log s') = printed (log s).
Proof.
  revert s. induction names as [|n names IH]; intros s Hn Hinv H;
    cbn [import_names] in H.
  - inversion H; subst. auto.
  - apply mem_cons_false in Hn as [Hne Hn].
    apply bind_inv in H as [([] & s1 & H1 & H2) | (e & H1 & ->)].
    + destruct (assign_quiet _ n _ _ _ (quiet_ext_op ext ext_no_leak _)
                  (not_eq_sym Hne) Hinv H1) as [Hinv1 P1].
      destruct (IH _ Hn Hinv1 H2) as [Hinv2 P2]. split; [assumption|congruence].
    + apply (assign_quiet _ n _ _ _ (quiet_ext_op ext ext_no_leak _)
               (not_eq_sym Hne) Hinv H1).
Qed.

(** A print statement adds one text when it completes and none when it
    fails. *)
Lemma exec_print_stmt e s r s' :
  mem "print" (expr_reads e) = false -> print_is_builtin (env s) ->
  exec_stmt ext (SExpr (ECall (EName "print") [e] [])) s = (r, s') ->
  print_is_builtin (env s')
  /\ exists texts, printed (log s') = printed (log s) ++ map (fun t => [t]) texts
                   /\ length texts <= 1 /\ (r = Done tt -> length texts = 1).
Proof.
  intros Hr Hinv H. pose proof (eval_quiet ext ext_no_leak e Hr) as Hq.
  change (exec_stmt ext (SExpr (ECall (EName "print") [e] [])) s)
    with (bind (bind (lookup_name "print")
                  (fun vf => bind (bind (eval ext e)
                                     (fun a => bind (ret []) (fun r0 => ret (a :: r0))))
                               (fun vs => bind (ret [])
                                            (fun kws => apply ext vf vs kws))))
               (fun _ => ret tt) s) in H.
  unfold bind, lookup_name, ret in H. rewrite (proj1 Hinv) in H.
  destruct (eval ext e s) as [[v|ex] sb] eqn:He;
    destruct (Hq _ _ _ Hinv He) as (Eenv & Epr & _).
  - simpl in H. unfold bind, ret, record in H.
    pose proof (quiet_render ext ext_no_leak v) as Hrender.
    rewrite <- Eenv in Hinv.
    destruct (render ext v sb) as [[t|ex] sc] eqn:Hrd;
      destruct (Hrender _ _ _ Hinv Hrd) as (Eenv' & Epr' & _).
    + rewrite <- Eenv' in Hinv.
      destruct (ext_op ext (OWrite [t]) sc) as [[u|ex] sd] eqn:Hwr;
        destruct (quiet_ext_op ext ext_no_leak _ _ _ _ Hinv Hwr) as (Eenv2 & Epr2 & _);
        inversion H; subst; simpl.
      * split; [rewrite Eenv2; assumption|]. exists [t].
        rewrite printed_printed. simpl. split; [congruence|]. split; [lia|reflexivity].
      * split; [rewrite Eenv2; assumption|]. exists []. simpl.
        rewrite app_nil_r. split; [congruence|]. split; [lia|discriminate].
    + inversion H; subst. split; [rewrite Eenv'; assumption|]. exists []. simpl.
      rewrite app_nil_r. split; [congruence|]. split; [lia|discriminate].
  - inversion H; subst. split; [rewrite Eenv; assumption|]. exists []. simpl.
    rewrite app_nil_r. split; [assumption|]. split; [lia|discriminate].
Qed.

(** Any other disciplined statement adds none. *)
Lemma exec_silent_stmt st s r s' :
  printed_expr st = None -> print_disciplined st = true ->
  print_is_builtin (env s) -> exec_stmt ext st s = (r, s') ->
  print_is_builtin (env s') /\ printed (log s') = printed (log s).
Proof.
  intros Hnone Hd Hinv H. unfold print_disciplined in Hd. rewrite Hnone in Hd.
  apply andb_true_iff in Hd as [Hreads Hbinds].
  apply negb_true_iff in Hreads. apply negb_true_iff in Hbinds.
  destruct st as [m names|m|x e|e|line|k]; unfold stmt_binds in Hbinds;
    unfold stmt_reads in Hreads; cbn [stmt_expr] in Hreads; cbn [exec_stmt] in H.
  - eapply import_names_quiet; eassumption.
  - apply mem_cons_false in Hbinds as [Hne _].
    refine (assign_quiet _ _ _ _ _ _ _ Hinv H);
      [apply quiet_ext_op; exact ext_no_leak|congruence].
  - apply mem_cons_false in Hbinds as [Hne _].
    refine (assign_quiet _ _ _ _ _ _ _ Hinv H);
      [exact (eval_quiet ext ext_no_leak _ Hreads)|congruence].
  - refine (discard_quiet not_print _ _ _ _ _ Hinv H).
    exact (eval_quiet ext ext_no_leak _ Hreads).
  - refine (discard_quiet not_print _ _ _ _ _ Hinv H).
    apply quiet_ext_op; exact ext_no_leak.
  - inversion H; subst. auto.
Qed.

Lemma exec_prints p s r s' :
  forallb print_disciplined p = true -> print_is_builtin (env s) ->
  exec ext p s = (r, s') ->
  exists texts, printed (log s') = printed (log s) ++ map (fun t => [t]) texts
                /\ length texts <= print_count p
                /\ (r = Done tt -> length texts = print_count p).
Proof.
  revert s. induction p as [|st p IH]; intros s Hd Hinv H.
  - inversion H; subst. exists []. simpl. rewrite app_nil_r. auto.
  - cbn [forallb] in Hd. apply andb_true_iff in Hd as [Hst Hd].
    cbn [exec] in H.
    assert (Hstep : forall r1 s1, exec_stmt ext st s = (r1, s1) ->
              print_is_builtin (env s1)
              /\ exists texts,
                   printed (log s1) = printed (log s) ++ map (fun t => [t]) texts
                   /\ length texts <= length (omap printed_expr [st])
                   /\ (r1 = Done tt -> length texts = length (omap printed_expr [st]))).
    { intros r1 s1 H1. simpl. destruct (printed_expr st) as [e|] eqn:Epr.
      - pose proof (printed_expr_Some _ _ Epr) as ->.
        unfold print_disciplined in Hst. rewrite Epr in Hst.
        apply negb_true_iff in Hst.
        apply (exec_print_stmt e s r1 s1 Hst Hinv H1).
      - destruct (exec_silent_stmt st s r1 s1 Epr Hst Hinv H1) as [Hinv1 P1].
        split; [assumption|]. exists []. simpl. rewrite app_nil_r. auto. }
    assert (Hcount : print_count (st :: p)
                     = length (omap printed_expr [st]) + print_count p).
    { unfold print_count. simpl. destruct (printed_expr st); reflexivity. }
    rewrite Hcount.
    apply bind_inv in H as [([] & s1 & H1 & H2) | (e & H1 & ->)].
    + destruct (Hstep _ _ H1) as (Hinv1 & t1 & P1 & L1 & D1).
      destruct (IH s1 Hd Hinv1 H2) as (t2 & P2 & L2 & D2).
      exists (t1 ++ t2). rewrite P2, P1, map_app, length_app, app_assoc.
      split; [reflexivity|]. split; [lia|].
      intros Hdone. rewrite (D1 eq_refl), (D2 Hdone). reflexivity.
    + destruct (Hstep _ _ H1) as (_ & t1 & P1 & L1 & _).
      exists t1. split; [assumption|]. split; [lia|discriminate].
Qed.

End PrintedTexts.

Lemma print_is_builtin_initial : print_is_builtin initial_env.
Proof.
  unfold initial_env. split.
  - apply lookup_singleton_eq.
  - intros x Hx. rewrite lookup_singleton_ne by congruence. discriminate.
Qed.

Lemma method_framework_no_leak : no_print_leak method_framework.
Proof.
  intros w o v w' H. unfold method_framework in H.
  repeat match type of H with
         | context [match ?x with _ => _ end] => destruct x
         | context [if ?b then _ else _] => destruct b
         end;
    inversion H; subst; discriminate.
Qed.

(** X6.  All three examples: the name [print] is only ever called, with one
    argument, as a statement of its own, and never rebound.  So in every
    framework that does not hand out the builtin print itself, a run prints
    one text for each print statement it completes and nothing else: a
    completed run of the README example prints exactly 2 texts, of the
    ground-state tutorial 5 and of the electronic-structure tutorial 3, and
    a failed run at most as many. *)
Theorem examples_print_through_print_only
  {World : Type} (ext : World -> op -> (value + value) * World) (w : World)
  (p : list stmt) (r : outcome unit) (s' : state World) :
  no_print_leak ext ->
  In p examples ->
  run ext p w = (r, s') ->
  map print_count examples = [2; 5; 3]
  /\ exists texts, printed (log s') = map (fun t => [t]) texts
                   /\ length texts <= print_count p
                   /\ (r = Done tt -> length texts = print_count p).
Proof.
  intros Hleak Hp Hrun. split; [reflexivity|].
  assert (Hd : forallb print_disciplined p = true).
  { destruct Hp as [<-|[<-|[<-|[]]]]; reflexivity. }
  apply (exec_prints ext Hleak p (initial w) r s' Hd print_is_builtin_initial Hrun).
Qed.

Lemma examples_print_through_print_only_witness :
  let p := notebook_program ground_state_solvers in
  let s' := snd (run method_framework p 0%N) in
  no_print_leak method_framework
  /\ In p examples
  /\ run method_framework p 0%N = (Done tt, s')
  /\ exists texts, printed (log s') = map (fun t => [t]) texts
                   /\ length texts <= print_count p
                   /\ (Done tt = Done tt -> length texts = print_count p).
Proof.
  intros p s'.
  assert (H1 : In p examples) by (right; left; reflexivity).
  assert (H2 : run method_framework p 0%N = (Done tt, s')) by (vm_compute; reflexivity).
  split; [exact method_framework_no_leak|]. do 2 (split; [assumption|]).
  apply (examples_print_through_print_only method_framework 0%N p (Done tt) s'
           method_framework_no_leak H1 H2).
Defined.

(** ** Exceptions *)




(** ** The order of the cells *)



